(** * A shallow embedding of butido's build pipeline core

    Package trees ([src/package/tree.rs]), the staging store
    ([src/filestore/staging.rs]), runnable jobs ([src/job/runnable.rs]),
    the [db] query windows ([src/commands/db.rs]) and endpoint selection
    ([src/commands/endpoint.rs]). *)

From Stdlib Require Import Ascii String List ZArith Bool Permutation Sorted Lia.
Import ListNotations.
Open Scope string_scope.
Set Warnings "-register-all".


(** Results of fallible code, [anyhow::Result<T>]. *)
Inductive result (E A : Type) : Type :=
| Ok (a : A)
| Err (e : E).
Arguments Ok {E A} a.
Arguments Err {E A} e.

(** [Iterator::collect::<Result<Vec<_>, _>>()]: stops at the first error,
    or gives all the values. *)
Fixpoint collect_vec {E A : Type} (l : list (result E A)) : result E (list A) :=
  match l with
  | [] => Ok []
  | Err e :: _ => Err e
  | Ok a :: l' =>
      match collect_vec l' with
      | Ok xs => Ok (a :: xs)
      | Err e => Err e
      end
  end.

(* ------------------------------------------------------------------ *)
(** ** Packages and the repository *)

Module PackageTree.

Definition PackageName := string.
Definition PackageVersion := string.
(** A version constraint, here an exact version ("=2" in recipes). *)
Definition PackageVersionConstraint := string.

(** Modelled from the spec: [Package] (src/package/package.rs is not in
    the excerpt) with its name, version and parsed build and runtime
    dependencies (name, constraint). *)
Record Package := mkPackage {
  name : PackageName;
  version : PackageVersion;
  build_deps : list (PackageName * PackageVersionConstraint);
  runtime_deps : list (PackageName * PackageVersionConstraint)
}.

(** Modelled from the spec: [get_all_dependencies], the build
    dependencies followed by the runtime dependencies. *)
Definition get_all_dependencies (p : Package)
  : list (PackageName * PackageVersionConstraint) :=
  app (build_deps p) (runtime_deps p).

(** Modelled from the spec: [Package]'s equality, on (name, version). *)
Definition package_eqb (p q : Package) : bool :=
  (name p =? name q) && (version p =? version q).

(** Modelled from the spec: [Package]'s order, the key order of the
    [BTreeMap<Package, Tree>], lexicographic on (name, version). *)
Definition package_compare (p q : Package) : comparison :=
  match String.compare (name p) (name q) with
  | Eq => String.compare (version p) (version q)
  | c => c
  end.

(** Modelled from the spec: a [Repository], the packages in key order. *)
Definition Repository := list Package.

(** Modelled from the spec: [find_with_version_constraint name constr],
    the packages of that name whose version satisfies the constraint. *)
Definition find_with_version_constraint (repo : Repository)
    (n : PackageName) (c : PackageVersionConstraint) : list Package :=
  filter (fun q => (name q =? n) && (version q =? c)) repo.

(** [struct Tree { root: BTreeMap<Package, Tree> }]; the map is a list of
    entries sorted by [package_compare]. *)
Inductive Tree : Type :=
| Node (root : list (Package * Tree)).

Definition root_of (t : Tree) : list (Package * Tree) :=
  match t with Node m => m end.

(** [Tree::new] *)
Definition new : Tree := Node [].

(** [BTreeMap::insert]: an equal key keeps the old key, takes the new
    value. *)
Fixpoint map_insert (k : Package) (v : Tree) (m : list (Package * Tree))
  : list (Package * Tree) :=
  match m with
  | [] => [(k, v)]
  | (k', v') :: m' =>
      match package_compare k k' with
      | Lt => (k, v) :: m
      | Eq => (k', v) :: m'
      | Gt => (k', v') :: map_insert k v m'
      end
  end.

Definition tree_insert (k : Package) (v : Tree) (t : Tree) : Tree :=
  Node (map_insert k v (root_of t)).

(** [Tree::has_package]: by name, recursively
    ([keys().any(name_eq) || values().any(|t| t.has_package(p))]). *)
Fixpoint has_package (t : Tree) (p : Package) : bool :=
  match t with
  | Node m =>
      existsb (fun kv => name (fst kv) =? name p) m
      || existsb (fun '(_, st) => has_package st p) m
  end.

(** [Iterator::filter_map(f).next()]: the first [Some]. *)
Fixpoint first_some {A B : Type} (f : A -> option B) (l : list A)
  : option B :=
  match l with
  | [] => None
  | x :: l' =>
      match f x with
      | Some b => Some b
      | None => first_some f l'
      end
  end.

(** [find_package_depth] inside [Tree::package_depth_where]. *)
Fixpoint find_package_depth (t : Tree) (current : nat)
    (cmp : Package -> bool) : option nat :=
  match t with
  | Node m =>
      if existsb (fun kv => cmp (fst kv)) m then Some current
      else first_some (fun '(_, st) => find_package_depth st (S current) cmp) m
  end.

(** [Tree::package_depth_where] *)
Definition package_depth_where (t : Tree) (cmp : Package -> bool)
  : option nat :=
  find_package_depth t 0 cmp.

(** [Tree::package_depth]: [|k| k == p]. *)
Definition package_depth (t : Tree) (p : Package) : option nat :=
  package_depth_where t (fun k => package_eqb k p).

(** The error of the duplicate check, ["Duplicate version of some
    package in {:?} found"] with the packages found for the dependency.
    The [?] on [get_all_dependencies(executor)] has no counterpart here:
    [get_all_dependencies] is total, so the errors of reading a package's
    dependencies are left out of the model. *)
Inductive TreeError :=
| DuplicatePackage (found : list Package).

(** [add_package_tree] (the body of [mk_add_package_tree!]).  [this] is
    the map the finished entry for [p] is inserted into, [root] the tree
    [add_package] was called on: it is not touched until the whole
    construction is done.  The recursion of the Rust code is unbounded:
    [fuel] bounds its depth, [None] meaning the bound was reached. *)
Fixpoint add_package_tree (fuel : nat) (repo : Repository) (root : Tree)
    (this : Tree) (p : Package) {struct fuel}
  : option (result TreeError Tree) :=
  match fuel with
  | O => None
  | S fuel' =>
      let fix follow (pack : list Package) (subtree : Tree)
          : option (result TreeError Tree) :=
        match pack with
        | [] => Some (Ok subtree)
        | q :: pack' =>
            match add_package_tree fuel' repo root subtree q with
            | Some (Ok subtree') => follow pack' subtree'
            | r => r
            end
        end in
      let fix each_dep (ds : list (PackageName * PackageVersionConstraint))
          (subtree : Tree) : option (result TreeError Tree) :=
        match ds with
        | [] => Some (Ok subtree)
        | (n, c) :: ds' =>
            let pack := find_with_version_constraint repo n c in
            if existsb (fun q => has_package root q) pack
            then Some (Err (DuplicatePackage pack))
            else
              match follow pack subtree with
              | Some (Ok subtree') => each_dep ds' subtree'
              | r => r
              end
        end in
      match each_dep (get_all_dependencies p) new with
      | Some (Ok subtree) => Some (Ok (tree_insert p subtree this))
      | r => r
      end
  end.

(** [Tree::add_package]: [this] and [root] are both [self]; on success the
    result is the new [self]. *)
Definition add_package (fuel : nat) (repo : Repository) (self : Tree)
    (p : Package) : option (result TreeError Tree) :=
  add_package_tree fuel repo self self p.

(** All package names of a tree, in traversal order. *)
Fixpoint tree_names (t : Tree) : list PackageName :=
  match t with
  | Node m => flat_map (fun '(k, st) => name k :: tree_names st) m
  end.

(** [p] occurs in [t] at depth [d] (the top-level keys at depth 0),
    for a comparison [cmp]. *)
Inductive occurs_at (cmp : Package -> bool) : Tree -> nat -> Prop :=
| occurs_here m k v :
    In (k, v) m -> cmp k = true -> occurs_at cmp (Node m) 0
| occurs_below m k v d :
    In (k, v) m -> occurs_at cmp v d -> occurs_at cmp (Node m) (S d).

(** Packages used in the examples. *)
Definition pkg (n v : string) (ds : list (string * string)) : Package :=
  mkPackage n v [] ds.

(** The diamond: [r] depends on [a] and [c], [a] on [b=1], [c] on [b=2]. *)
Definition pkg_r : Package := pkg "r" "1" [("a", "1"); ("c", "1")].
Definition repo_diamond : Repository :=
  [pkg "a" "1" [("b", "1")]; pkg "b" "1" []; pkg "b" "2" [];
   pkg "c" "1" [("b", "2")]; pkg_r].

(** A cycle: [a] depends on [b], [b] on [a]. *)
Definition cyc_a : Package := pkg "a" "1" [("b", "1")].
Definition cyc_b : Package := pkg "b" "1" [("a", "1")].
Definition repo_cycle : Repository := [cyc_a; cyc_b].

(** [p] reachable along two paths of different lengths:
    [r -> a -> x -> p] and [r -> b -> p]. *)
Definition pkg_top : Package := pkg "r" "1" [("a", "1"); ("b", "1")].
Definition pkg_p : Package := pkg "p" "1" [].
Definition repo_two_paths : Repository :=
  [pkg "a" "1" [("x", "1")]; pkg "b" "1" [("p", "1")]; pkg_p; pkg_top;
   pkg "x" "1" [("p", "1")]].

(** The tree built for [r] when [p] is reachable along two paths. *)
Definition tree_two_paths : Tree :=
  Node [(pkg_top,
         Node [(pkg "a" "1" [("x", "1")],
                Node [(pkg "x" "1" [("p", "1")], Node [(pkg_p, Node [])])]);
               (pkg "b" "1" [("p", "1")], Node [(pkg_p, Node [])])])].

(** Induction on trees, through the entries of each node. *)
Fixpoint Tree_nested_ind (P : Tree -> Prop)
    (H : forall m, Forall (fun kv => P (snd kv)) m -> P (Node m))
    (t : Tree) {struct t} : P t :=
  match t with
  | Node m =>
      H m ((fix go (m : list (Package * Tree))
              : Forall (fun kv => P (snd kv)) m :=
              match m with
              | [] => Forall_nil _
              | kv :: m' =>
                  Forall_cons kv (Tree_nested_ind P H (snd kv)) (go m')
              end) m)
  end.

(** [Tree::packages]: the keys of this node only. *)
Definition packages (t : Tree) : list Package := map fst (root_of t).

(** [Tree::dependencies]: the subtrees of this node. *)
Definition dependencies (t : Tree) : list Tree := map snd (root_of t).

(** The two loops of [add_package_tree], named: [follow_packages] runs
    [add_package_tree] on each package found for one dependency
    ([pack.into_iter().map(..).collect()]), [each_dependency] checks the
    duplicate guard and follows the found packages for each dependency
    in turn ([.collect::<Result<Vec<()>>>()?]). *)
Definition follow_packages (fuel' : nat) (repo : Repository) (root : Tree) :=
  fix follow (pack : list Package) (subtree : Tree)
      : option (result TreeError Tree) :=
    match pack with
    | [] => Some (Ok subtree)
    | q :: pack' =>
        match add_package_tree fuel' repo root subtree q with
        | Some (Ok subtree') => follow pack' subtree'
        | r => r
        end
    end.

Definition each_dependency (fuel' : nat) (repo : Repository) (root : Tree) :=
  fix each_dep (ds : list (PackageName * PackageVersionConstraint))
      (subtree : Tree) : option (result TreeError Tree) :=
    match ds with
    | [] => Some (Ok subtree)
    | (n, c) :: ds' =>
        let pack := find_with_version_constraint repo n c in
        if existsb (fun q => has_package root q) pack
        then Some (Err (DuplicatePackage pack))
        else
          match follow_packages fuel' repo root pack subtree with
          | Some (Ok subtree') => each_dep ds' subtree'
          | r => r
          end
    end.

(** A repository is a [BTreeMap<(PackageName, PackageVersion), Package>]:
    no two of its packages share name and version. *)
Definition repo_keys_unique (repo : Repository) : bool :=
  forallb (fun q => Nat.eqb
             (length (filter (fun q' => (name q =? name q') &&
                                        (version q =? version q')) repo)) 1)
          repo.

(** Every key of the tree has, as the keys of its subtree, exactly the
    repository packages found for its dependencies. *)
Inductive resolved (repo : Repository) : Tree -> Prop :=
| resolved_node m :
    (forall k st, In (k, st) m ->
       (forall q, In q (packages st) <->
          exists n c, In (n, c) (get_all_dependencies k) /\
                      In q (find_with_version_constraint repo n c)) /\
       resolved repo st) ->
    resolved repo (Node m).

End PackageTree.

(* ------------------------------------------------------------------ *)
(** ** The staging store *)

Module Staging.

(** A path relative to the store root, as its components. *)
Definition Path := list string.

Definition path_eqb (p q : Path) : bool :=
  if list_eq_dec string_dec p q then true else false.

(** A path with a [..] component. *)
Definition has_parent_dir (p : Path) : bool :=
  existsb (fun c => c =? "..") p.

Inductive NodeKind := File | Dir.

(** The files and directories under the store root. *)
Definition Fs := list (Path * NodeKind).

Fixpoint fs_lookup (fs : Fs) (p : Path) : option NodeKind :=
  match fs with
  | [] => None
  | (q, k) :: fs' => if path_eqb q p then Some k else fs_lookup fs' p
  end.

Definition fs_write (fs : Fs) (p : Path) (k : NodeKind) : Fs :=
  (p, k) :: filter (fun qk => negb (path_eqb (fst qk) p)) fs.

(** [Path::is_dir] and [Path::is_file] of [root.join(p)]. *)
Definition is_dir (fs : Fs) (p : Path) : bool :=
  match fs_lookup fs p with Some Dir => true | _ => false end.
Definition is_file (fs : Fs) (p : Path) : bool :=
  match fs_lookup fs p with Some File => true | _ => false end.

(** The errors, with the [anyhow] contexts the code attaches. *)
Inductive Error :=
| StreamError
| MalformedTar
| TarIoError (p : Path)
| NotSubPath (p : Path)
| EntryExists (p : Path)
| PathDoesNotExist (p : Path)
| Context (msg : string) (e : Error).

(** A TAR header as the [tar] crate reads it. *)
Record TarEntry := mkEntry { entry_path : Path; entry_kind : NodeKind }.

(** The archive bytes, seen as the headers they hold: a well-formed
    header, or bytes the [tar] crate fails to read as one. *)
Inductive TarBlock :=
| Header (e : TarEntry)
| Garbage.

(** A chunk of the byte stream, [Vec<u8>]. *)
Definition Bytes := list TarBlock.

(** [TryStreamExt::try_concat]: the first error, or all chunks
    concatenated. *)
Fixpoint try_concat (stream : list (result Error Bytes))
  : result Error Bytes :=
  match stream with
  | [] => Ok []
  | Err e :: _ => Err e
  | Ok b :: s' =>
      match try_concat s' with
      | Ok bs => Ok (app b bs)
      | Err e => Err e
      end
  end.

(** [tar::Archive::entries], each entry as a [Result]. *)
Definition entries (bytes : Bytes) : list (result Error TarEntry) :=
  map (fun b => match b with
                | Header e => Ok e
                | Garbage => Err MalformedTar
                end) bytes.

(** [collect::<Result<Vec<_>>>()]: stops at the first error. *)
Fixpoint collect_results {A : Type} (l : list (result Error A))
  : result Error (list A) :=
  match l with
  | [] => Ok []
  | Err e :: _ => Err e
  | Ok a :: l' =>
      match collect_results l' with
      | Ok xs => Ok (a :: xs)
      | Err e => Err e
      end
  end.

(** The [tar] crate's [Archive::unpack(dst)]: each entry in turn is
    written under [dst], except that [Entry::unpack_in] skips (without an
    error) an entry with a [..] component; a malformed header stops the
    unpacking with an error, after the entries before it were written. *)
Fixpoint unpack (fs : Fs) (es : list (result Error TarEntry))
  : Fs * result Error unit :=
  match es with
  | [] => (fs, Ok tt)
  | Err e :: _ => (fs, Err e)
  | Ok e :: es' =>
      if has_parent_dir (entry_path e) then unpack fs es'
      else unpack (fs_write fs (entry_path e) (entry_kind e)) es'
  end.

(** [FileStoreImpl]: its root and its index, the paths of its artifacts
    in insertion order. *)
Record FileStoreImpl := mkStore { index : list Path }.

(** [StagingStore(FileStoreImpl)] *)
Definition StagingStore := FileStoreImpl.

(** Modelled from the spec: [FileStoreImpl::load_from_path]
    (src/filestore/util.rs is not in the excerpt): the index takes only
    paths inside the root that are regular files ("the index never
    references a path that is not a file"), and refuses a path it already
    holds ("never produces a duplicate index entry").  On success the path
    is added to the index and returned as the artifact's path. *)
Definition load_from_path (st : FileStoreImpl) (fs : Fs) (p : Path)
  : FileStoreImpl * result Error Path :=
  if has_parent_dir p then (st, Err (NotSubPath p))
  else if existsb (path_eqb p) (index st) then (st, Err (EntryExists p))
  else if negb (is_file fs p) then (st, Err (PathDoesNotExist p))
  else (mkStore (app (index st) [p]), Ok p).

(** The [filter_map(..).collect::<Result<Vec<_>>>()] over the entry
    paths: directories are skipped, every other path is loaded into the
    index; the first error stops the loop, the paths loaded before it stay
    in the index. *)
Fixpoint load_outputs (st : FileStoreImpl) (fs : Fs) (outputs : list Path)
  : FileStoreImpl * result Error (list Path) :=
  match outputs with
  | [] => (st, Ok [])
  | p :: ps =>
      if is_dir fs p then load_outputs st fs ps
      else
        match load_from_path st fs p with
        | (st', Err e) =>
            (st', Err (Context "Loading from path" e))
        | (st', Ok q) =>
            match load_outputs st' fs ps with
            | (st'', Ok qs) => (st'', Ok (q :: qs))
            | (st'', Err e) => (st'', Err e)
            end
        end
  end.

(** [archive.entries()?.map(|ent| ent?.path()..).collect()]: the paths of
    the entries, or the first error. *)
Definition list_entry_paths (bytes : Bytes) : result Error (list Path) :=
  collect_results (map (fun r => match r with
                                 | Ok ent => Ok (entry_path ent)
                                 | Err e => Err e
                                 end) (entries bytes)).

(** The paths of the well-formed headers of an archive. *)
Definition header_paths (bytes : Bytes) : list Path :=
  flat_map (fun b => match b with
                     | Header e => [entry_path e]
                     | Garbage => []
                     end) bytes.

(** [StagingStore::write_files_from_tar_stream]: the store and the files
    under its root are threaded through; the result is the new files, the
    new store and the returned [Result<Vec<PathBuf>>]. *)
Definition write_files_from_tar_stream (st : StagingStore) (fs : Fs)
    (stream : list (result Error Bytes))
  : Fs * StagingStore * result Error (list Path) :=
  match try_concat stream with
  | Err e => (fs, st, Err (Context "Concatenating the output bytestream" e))
  | Ok bytes =>
      match list_entry_paths bytes with
      | Err e =>
          (fs, st, Err (Context "Concatenating the output bytestream"
                          (Context "Collecting outputs of TAR archive" e)))
      | Ok outputs =>
          match unpack fs (entries bytes) with
          | (fs', Err e) =>
              (fs', st, Err (Context "Concatenating the output bytestream"
                               (Context "Unpacking TAR" e)))
          | (fs', Ok tt) =>
              let '(st', r) := load_outputs st fs' outputs in (fs', st', r)
          end
      end
  end.


(** An archive with the single file [b]. *)
Definition tar_b : list (result Error Bytes) :=
  [Ok [Header (mkEntry ["b"] File)]].

End Staging.

(* ------------------------------------------------------------------ *)
(** ** Runnable jobs *)

Module Runnable.

(** The errors of [RunnableJob::build_from_job]: the one it raises
    itself, with its context, and those of its collaborators. *)
Inductive Error :=
| MissingDependency (name version : string)
| Context (msg : string) (e : Error)
| Other (msg : string).

Section BuildFromJob.

(** The collaborators: the package type with its build and runtime
    dependencies, [ParseDependency::parse_as_name_and_version],
    [MergedStores::get_artifact_by_name_and_version], the script builder,
    and [Artifact]'s order ([Ord], used by [sort]). *)
Variables (Package Dependency Script Artifact : Type).
Variables (build_deps runtime_deps : Package -> list Dependency).
Variable parse_as_name_and_version :
  Dependency -> result Error (string * string).
Variable get_artifact_by_name_and_version :
  string -> string -> result Error (list Artifact).
Variable artifact_leb : Artifact -> Artifact -> bool.

(** [enum JobResource] *)
Inductive JobResource :=
| JRArtifact (a : Artifact)
| JREnv (name value : string).

(** [struct Job], the fields [build_from_job] reads. *)
Record Job := mkJob {
  job_uuid : string;
  job_package : Package;
  job_image : string;
  script_shebang : string;
  script_phases : list string
}.

Variable script_build : Job -> result Error Script.

(** [struct RunnableJob]; the [SourceCache] handle is left out. *)
Record RunnableJob := mkRunnableJob {
  rj_uuid : string;
  rj_package : Package;
  rj_image : string;
  rj_script : Script;
  rj_resources : list JobResource
}.

(** [slice::sort], a stable sort by [artifact_leb]. *)
Fixpoint insert_sorted (x : Artifact) (l : list Artifact) : list Artifact :=
  match l with
  | [] => [x]
  | y :: l' => if artifact_leb x y then x :: l else y :: insert_sorted x l'
  end.

Definition sort (l : list Artifact) : list Artifact :=
  fold_right insert_sorted [] l.

(** The three [warn!] lines for an ambiguous dependency. *)
Definition ambiguity_warnings (name version : string) : list string :=
  ["Found more than one dependency for " ++ name ++ " " ++ version;
   "Using: the first after sorting";
   "Please investigate, this might be a BUG"].

(** [RunnableJob::build_resource]: the warnings it logs and its result. *)
Definition build_resource (dep : Dependency)
  : list string * result Error JobResource :=
  match parse_as_name_and_version dep with
  | Err e => ([], Err e)
  | Ok (name, vers) =>
      match get_artifact_by_name_and_version name vers with
      | Err e => ([], Err e)
      | Ok a =>
          match a with
          | [] =>
              ([], Err (Context "Building a runnable job"
                          (MissingDependency name vers)))
          | _ =>
              let a_len := length a in
              match sort a with
              | found_dependency :: _ =>
                  (if Nat.ltb 1 a_len then ambiguity_warnings name vers else [],
                   Ok (JRArtifact found_dependency))
              | [] => ([], Err (Other "unreachable"))
              end
          end
      end
  end.

(** [collect::<Result<Vec<_>>>()]: the first error, or all values. *)
Fixpoint collect_results {A : Type} (l : list (result Error A))
  : result Error (list A) :=
  match l with
  | [] => Ok []
  | Err e :: _ => Err e
  | Ok a :: l' =>
      match collect_results l' with
      | Ok xs => Ok (a :: xs)
      | Err e => Err e
      end
  end.

(** [.collect::<FuturesUnordered<_>>().collect::<Result<Vec<_>>>()]: the
    results arrive in completion order, any order of the futures. *)
Definition collect_unordered (rs : list (result Error JobResource))
    (out : result Error (list JobResource)) : Prop :=
  exists rs', Permutation rs rs' /\ out = collect_results rs'.

(** [RunnableJob::build_from_job], a relation for the completion orders
    of the two [FuturesUnordered]; after [tokio::join!] the build error
    is reported first, and on success the runtime resources are appended
    to the build resources. *)
Inductive build_from_job (job : Job) : result Error RunnableJob -> Prop :=
| build_script_error e :
    script_build job = Err e -> build_from_job job (Err e)
| build_joined script build rt :
    script_build job = Ok script ->
    collect_unordered
      (map (fun d => snd (build_resource d)) (build_deps (job_package job)))
      build ->
    collect_unordered
      (map (fun d => snd (build_resource d)) (runtime_deps (job_package job)))
      rt ->
    build_from_job job
      (match build, rt with
       | Err e, _ => Err e
       | Ok _, Err e => Err e
       | Ok b, Ok r =>
           Ok (mkRunnableJob (job_uuid job) (job_package job) (job_image job)
                 script (app b r))
       end).

End BuildFromJob.

Arguments JRArtifact {Artifact} a.
Arguments JREnv {Artifact} name value.
Arguments mkJob {Package} job_uuid job_package job_image script_shebang
  script_phases.
Arguments job_uuid {Package} _.
Arguments job_package {Package} _.
Arguments job_image {Package} _.
Arguments mkRunnableJob {Package Script Artifact} rj_uuid rj_package
  rj_image rj_script rj_resources.
Arguments rj_resources {Package Script Artifact} _.
Arguments rj_script {Package Script Artifact} _.
Arguments insert_sorted {Artifact} artifact_leb x l.
Arguments sort {Artifact} artifact_leb l.
Arguments build_resource {Dependency Artifact} parse_as_name_and_version
  get_artifact_by_name_and_version artifact_leb dep.
Arguments collect_unordered {Artifact} rs out.
Arguments build_from_job {Package Dependency Script Artifact} build_deps
  runtime_deps parse_as_name_and_version get_artifact_by_name_and_version
  artifact_leb script_build job _.

(** A concrete setting: dependencies are names resolved at version "1",
    artifacts are numbers ordered by [Nat.leb]; [b] has three artifacts,
    [c] one. *)
Definition ex_parse (d : string) : result Error (string * string) :=
  Ok (d, "1").
Definition ex_lookup (n v : string) : result Error (list nat) :=
  if n =? "b" then Ok [3; 1; 2] else if n =? "c" then Ok [7] else Ok [].
Definition ex_job : Job (list string * list string) :=
  mkJob "uuid" (["b"], ["c"]) "img" "#!/bin/bash" ["build"].
Definition ex_script (j : Job (list string * list string))
  : result Error string := Ok "script".

(** A job whose build dependency [z] has no artifact, one whose runtime
    dependency [z] has none, and a script builder that fails. *)
Definition ex_job_build_missing : Job (list string * list string) :=
  mkJob "uuid" (["z"], ["c"]) "img" "#!/bin/bash" ["build"].
Definition ex_job_runtime_missing : Job (list string * list string) :=
  mkJob "uuid" (["b"], ["z"]) "img" "#!/bin/bash" ["build"].
Definition ex_script_fails (j : Job (list string * list string))
  : result Error string := Err (Other "script").

End Runnable.

(* ------------------------------------------------------------------ *)
(** ** The [db] query windows *)

Module Db.

(** [i64::MAX], the Rust type of [LIMIT]. *)
Definition i64_max : Z := 9223372036854775807.

Inductive LimitError := TryFromIntError.

(** [get_limit]: the [--limit] argument, or the configured default (a
    [usize]); 0 stands for [i64::MAX], other values go through
    [i64::try_from]. *)
Definition get_limit (arg_limit : option Z) (default_limit : Z)
  : result LimitError Z :=
  let limit := match arg_limit with Some l => l | None => default_limit end in
  if Z.eqb limit 0 then Ok i64_max
  else if Z.leb limit i64_max then Ok limit
  else Err TryFromIntError.

(** A loaded row with its primary key [id]. *)
Record Row := mkRow { row_id : Z; row_data : string }.

(** [ORDER BY id DESC]. *)
Fixpoint insert_desc (r : Row) (l : list Row) : list Row :=
  match l with
  | [] => [r]
  | r' :: l' =>
      if Z.leb (row_id r') (row_id r) then r :: l else r' :: insert_desc r l'
  end.

Definition order_by_id_desc (l : list Row) : list Row :=
  fold_right insert_desc [] l.

(** [LIMIT n]. *)
Fixpoint sql_limit (n : Z) (l : list Row) : list Row :=
  match l with
  | [] => []
  | r :: l' => if Z.leb n 0 then [] else r :: sql_limit (Z.sub n 1) l'
  end.

(** The rows shown by [db artifacts]: [.order_by(id.desc()).limit(limit)],
    loaded, then [.rev()]. *)
Definition artifacts (rows : list Row) (limit : Z) : list Row :=
  rev (sql_limit limit (order_by_id_desc rows)).

(** The rows shown by [db jobs]: the same pipeline on the jobs rows. *)
Definition jobs (rows : list Row) (limit : Z) : list Row :=
  rev (sql_limit limit (order_by_id_desc rows)).

(** The rows shown by [db submits] without [--with-pkg] (the default
    and the [--for-pkg] queries): the same pipeline on the submits rows.
    The [--with-pkg] query is not modelled: it limits the rows of a join
    of the submits with their jobs, then reloads the submits by id. *)
Definition submits (rows : list Row) (limit : Z) : list Row :=
  rev (sql_limit limit (order_by_id_desc rows)).

(** The rows shown by [db releases]: [.order_by(releases::id.desc())
    .limit(limit)], loaded and mapped, with no [.rev()]. *)
Definition releases (rows : list Row) (limit : Z) : list Row :=
  sql_limit limit (order_by_id_desc rows).

(** Two releases, the older one with id 1. *)
Definition two_rows : list Row := [mkRow 1 "older"; mkRow 2 "newer"].

(** [crate::log::JobResult] *)
Inductive JobResult := Unknown | Success | Errored.

Definition JobResult_eqb (a b : JobResult) : bool :=
  match a, b with
  | Unknown, Unknown | Success, Success | Errored, Errored => true
  | _, _ => false
  end.

Section SubmitSummary.

(** The jobs of a submit with their [log_text], and the log parser:
    [ParsedLog::from_str] and [ParsedLog::is_successfull]. *)
Variables (Job ParsedLog E : Type) (log_text : Job -> string).
Variable from_str : string -> result E ParsedLog.
Variable is_successfull : ParsedLog -> JobResult.

(** The [for j in jobs.iter()] loop of [submit] with its three counters
    [unkn], [succ] and [err]; the [?] on a log that does not parse ends
    the command with that error. *)
Fixpoint count_loop (jobs : list Job) (unkn succ err : nat)
  : result E (nat * nat * nat) :=
  match jobs with
  | [] => Ok (unkn, succ, err)
  | j :: jobs' =>
      match from_str (log_text j) with
      | Err e => Err e
      | Ok pl =>
          match is_successfull pl with
          | Unknown => count_loop jobs' (S unkn) succ err
          | Success => count_loop jobs' unkn (S succ) err
          | Errored => count_loop jobs' unkn succ (S err)
          end
      end
  end.

(** [(jobs_unknown, jobs_success, jobs_err)] *)
Definition job_counts (jobs : list Job) : result E (nat * nat * nat) :=
  count_loop jobs 0 0 0.

(** The number of jobs whose log parses and shows the result [r]. *)
Definition jobs_with_result (r : JobResult) (jobs : list Job) : nat :=
  length (filter (fun j => match from_str (log_text j) with
                           | Ok pl => JobResult_eqb (is_successfull pl) r
                           | Err _ => false
                           end) jobs).

End SubmitSummary.

Arguments count_loop {Job ParsedLog E} log_text from_str is_successfull
  jobs unkn succ err.
Arguments job_counts {Job ParsedLog E} log_text from_str is_successfull jobs.
Arguments jobs_with_result {Job ParsedLog E} log_text from_str
  is_successfull r jobs.

(** [str::split(".")]: the pieces between the dots (a path is UTF-8, and
    the byte of '.' occurs in no multi-byte character, so splitting the
    bytes splits the characters). *)
Fixpoint split_dot (s : string) : list string :=
  match s with
  | EmptyString => [EmptyString]
  | String c s' =>
      let rest := split_dot s' in
      if Ascii.eqb c "."%char then EmptyString :: rest
      else
        match rest with
        | piece :: rest' => String c piece :: rest'
        | [] => [String c EmptyString]
        end
  end.

(** [Iterator::last] *)
Fixpoint iter_last {A : Type} (l : list A) : option A :=
  match l with
  | [] => None
  | [x] => Some x
  | _ :: l' => iter_last l'
  end.

(** The "Type" column of [db jobs], from the path of the job's artifact,
    if it has one ([str::to_uppercase] is a parameter). *)
Definition artifact_type (to_uppercase : string -> string)
    (artifact_path : option string) : string :=
  match artifact_path with
  | Some path =>
      match option_map to_uppercase (iter_last (split_dot path)) with
      | Some s => s
      | None => "?"
      end
  | None => "-"
  end.

(** A string without a '.'. *)
Fixpoint no_dot (s : string) : bool :=
  match s with
  | EmptyString => true
  | String c s' => negb (Ascii.eqb c "."%char) && no_dot s'
  end.

(** The programs [db cli] can run. *)
Inductive PgCliCommand :=
| Psql (path : string)
| PgCli (path : string).

Inductive CliError :=
| UnsupportedProgram (prog : string)
| NoProgramFound.

(** The program [db cli] runs: the [--tool] argument or, without it,
    ["psql"] then ["pgcli"]; the first that [which::which] finds
    ([filter_map(..).map(..).next()]) is matched against the supported
    programs; none found is ["No Program found"]. *)
Definition select_pg_cli (tool : option string)
    (which : string -> option string) : result CliError PgCliCommand :=
  let candidates := match tool with
                    | Some s => [s]
                    | None => ["psql"; "pgcli"]
                    end in
  match PackageTree.first_some (fun s => match which s with
                             | Some path => Some (path, s)
                             | None => None
                             end) candidates with
  | Some (path, s) =>
      if s =? "psql" then Ok (Psql path)
      else if s =? "pgcli" then Ok (PgCli path)
      else Err (UnsupportedProgram s)
  | None => Err NoProgramFound
  end.

End Db.

(* ------------------------------------------------------------------ *)
(** ** Endpoints *)

Module EndpointSelection.

Definition EndpointName := string.

(** An endpoint's entry in the configuration. *)
Record Endpoint := mkEndpoint { uri : string; endpoint_type : string }.

(** [config.docker()]: the endpoint map and the requirements every
    endpoint gets. *)
Record DockerConfig := mkDockerConfig {
  endpoints : list (EndpointName * Endpoint);
  images : list string;
  docker_versions : option (list string);
  docker_api_versions : option (list string)
}.

(** [crate::endpoint::EndpointConfiguration] *)
Record EndpointConfiguration := mkEndpointConfiguration {
  endpoint_name : EndpointName;
  endpoint : Endpoint;
  required_images : list string;
  required_docker_versions : option (list string);
  required_docker_api_versions : option (list string)
}.

(** The [endpoint_configurations] of [connect_to_endpoints]: the entries
    of the map whose name is in [endpoint_names]
    ([endpoint_names.contains(ep_name)]), each built with the docker
    requirements. *)
Definition endpoint_configurations (docker : DockerConfig)
    (endpoint_names : list EndpointName) : list EndpointConfiguration :=
  map (fun '(ep_name, ep_cfg) =>
         mkEndpointConfiguration ep_name ep_cfg (images docker)
           (docker_versions docker) (docker_api_versions docker))
      (filter (fun '(ep_name, _) =>
                 existsb (fun n => n =? ep_name) endpoint_names)
              (endpoints docker)).

(** [connect_to_endpoints]: the configurations are handed to
    [setup_endpoints]. *)
Definition connect_to_endpoints {R : Type}
    (setup_endpoints : list EndpointConfiguration -> R)
    (docker : DockerConfig) (endpoint_names : list EndpointName) : R :=
  setup_endpoints (endpoint_configurations docker endpoint_names).

(** The [endpoint_names] of [endpoint]: the [endpoint_name] argument, or
    else the names of all configured endpoints. *)
Definition endpoint_names_of (docker : DockerConfig)
    (endpoint_name_arg : option EndpointName) : list EndpointName :=
  match endpoint_name_arg with
  | Some ep => [ep]
  | None => map fst (endpoints docker)
  end.

(** The task of one endpoint in [ping]: [for i in 1..(n_pings + 1)] it
    pings ([ping i] is the result of the [i]-th ping), advances the bar by
    one, and returns the error of a failed ping (the sleep between pings is
    left out).  The result is how far the bar advanced and the task's
    result. *)
Fixpoint ping_loop {E : Type} (ping : nat -> result E unit) (i remaining : nat)
  : nat * result E unit :=
  match remaining with
  | O => (0, Ok tt)
  | S k =>
      match ping i with
      | Err e => (1, Err e)
      | Ok _ => let '(n, r) := ping_loop ping (S i) k in (S n, r)
      end
  end.

(** [u64::MAX] *)
Definition u64_max : Z := 18446744073709551615.

(** The range [1..(n_pings + 1)] of [ping], [n_pings] a [u64]: the
    addition wraps as in a release build (a debug build panics), so
    [n_pings = u64::MAX] gives the empty range; a range [1..m] has
    [m - 1] elements, none when [m] is 0. *)
Definition ping_endpoint {E : Type} (n_pings : Z) (ping : nat -> result E unit)
  : nat * result E unit :=
  ping_loop ping 1 (Z.to_nat ((n_pings + 1) mod (u64_max + 1) - 1)).

(** The fields of a container's stats that [containers_prune] reads; the
    creation time in seconds. *)
Record ContainerStat := mkContainerStat {
  stat_id : string;
  stat_image : string;
  stat_state : string;
  stat_created : Z
}.

(** The three filters of [containers_prune]: exited, created before
    [--older-than] and after [--newer-than] (each bound when given). *)
Definition prune_filter (older_than_filter newer_than_filter : option Z)
    (stat : ContainerStat) : bool :=
  (stat_state stat =? "exited") &&
  match older_than_filter with
  | Some time => Z.ltb (stat_created stat) time
  | None => true
  end &&
  match newer_than_filter with
  | Some time => Z.ltb time (stat_created stat)
  | None => true
  end.

(** [containers_prune] up to the deletions: the [container_stats] of each
    connected endpoint, in completion order, each filtered and paired with
    its endpoint ([?] on the first failure); the prompt
    ["Really delete {} Containers?"] states their number, and the user's
    answer ([interact()?]) decides.  The result is the list of containers
    handed to [delete], [Ok []] when the user declines. *)
Definition containers_prune_targets {E : Type}
    (older_than_filter newer_than_filter : option Z)
    (listings : list (EndpointName * result E (list ContainerStat)))
    (confirm : nat -> result E bool)
  : result E (list (EndpointName * ContainerStat)) :=
  match collect_vec
          (map (fun '(ep, r) =>
                  match r with
                  | Ok stats =>
                      Ok (map (fun stat => (ep, stat))
                              (filter (prune_filter older_than_filter
                                         newer_than_filter) stats))
                  | Err e => Err e
                  end) listings) with
  | Err e => Err e
  | Ok stats =>
      match confirm (length (concat stats)) with
      | Err e => Err e
      | Ok false => Ok []
      | Ok true => Ok (concat stats)
      end
  end.

End EndpointSelection.

(* ------------------------------------------------------------------ *)
(** ** [what_depends] *)

Module WhatDepends.

Section WhatDepends.

(** The filter of [build_package_filter_by_dependency_name] for the name
    and the dependency kinds asked for ([FailableFilter::filter]). *)
Variable E : Type.
Variable package_filter : PackageTree.Package -> result E bool.

(** The packages [what_depends] prints: [repo.packages()]
    [.map(|package| package_filter.filter(package).map(|b| (b, package)))]
    [.filter_ok(|(b, _)| *b).map_ok(|tpl| tpl.1)]
    [.collect::<Result<Vec<_>>>()]. *)
Definition what_depends_packages (packages : list PackageTree.Package)
  : result E (list PackageTree.Package) :=
  collect_vec
    (map (fun r => match r with
                   | Ok tpl => Ok (snd tpl)
                   | Err e => Err e
                   end)
       (filter (fun r => match r with
                         | Ok (b, _) => b
                         | Err _ => true
                         end)
          (map (fun package =>
                  match package_filter package with
                  | Ok b => Ok (b, package)
                  | Err e => Err e
                  end) packages))).

End WhatDepends.

Arguments what_depends_packages {E} package_filter packages.

End WhatDepends.

(* ================================================================== *)
(** * Proofs *)

Import PackageTree.


Lemma first_some_Some {A B : Type} (f : A -> option B) l b :
  first_some f l = Some b -> exists x, In x l /\ f x = Some b.
Proof.
  induction l as [|x l IH]; simpl; [discriminate|].
  destruct (f x) eqn:E.
  - intros [= <-]. exists x. auto.
  - intros H. destruct (IH H) as [y [Hy Hf]]. exists y. auto.
Qed.

Lemma first_some_None {A B : Type} (f : A -> option B) l :
  first_some f l = None <-> forall x, In x l -> f x = None.
Proof.
  induction l as [|x l IH]; simpl.
  - split; [intros _ x []|reflexivity].
  - destruct (f x) eqn:E; split.
    + discriminate.
    + intros H. rewrite (H x (or_introl eq_refl)) in E. discriminate.
    + intros H y [<-|Hy]; [exact E|]. apply IH; assumption.
    + intros H. apply IH. intros y Hy. apply H. auto.
Qed.

(** What [find_package_depth] finds occurs at that depth (offset by the
    starting depth). *)
Lemma find_package_depth_sound t : forall n cmp d,
  find_package_depth t n cmp = Some d ->
  exists d', d = n + d' /\ occurs_at cmp t d'.
Proof.
  induction t as [m IH] using Tree_nested_ind. intros n cmp d. simpl.
  destruct (existsb (fun kv => cmp (fst kv)) m) eqn:E.
  - intros [= <-]. exists 0. split; [lia|].
    apply existsb_exists in E. destruct E as [[k v] [Hin Hc]].
    eapply occurs_here; eauto.
  - intros H. apply first_some_Some in H. destruct H as [[k v] [Hin Hf]].
    rewrite Forall_forall in IH.
    destruct (IH (k, v) Hin (S n) cmp d Hf) as [d' [-> Ho]].
    exists (S d'). split; [lia|]. eapply occurs_below; eauto.
Qed.

(** [find_package_depth] finds nothing exactly when nothing occurs. *)
Lemma find_package_depth_None t : forall n cmp,
  find_package_depth t n cmp = None <-> forall d, ~ occurs_at cmp t d.
Proof.
  induction t as [m IH] using Tree_nested_ind. intros n cmp. simpl.
  rewrite Forall_forall in IH.
  destruct (existsb (fun kv => cmp (fst kv)) m) eqn:E; split.
  - discriminate.
  - intros H. exfalso. apply existsb_exists in E.
    destruct E as [[k v] [Hin Hc]]. apply (H 0). eapply occurs_here; eauto.
  - rewrite first_some_None. intros H d Ho. inversion Ho; subst.
    + assert (Hx : existsb (fun kv => cmp (fst kv)) m = true).
      { apply existsb_exists. exists (k, v). auto. }
      congruence.
    + specialize (H (k, v) H1). simpl in H.
      apply (proj1 (IH (k, v) H1 (S n) cmp) H d0). assumption.
  - intros H. apply first_some_None. intros [k v] Hin. simpl.
    apply (proj2 (IH (k, v) Hin (S n) cmp)). intros d Ho.
    apply (H (S d)). eapply occurs_below; eauto.
Qed.

(** [has_package] is the search by name. *)
Lemma has_package_occurs t p :
  has_package t p = true <->
  exists d, occurs_at (fun k => name k =? name p) t d.
Proof.
  induction t as [m IH] using Tree_nested_ind. simpl.
  rewrite Forall_forall in IH. rewrite orb_true_iff, !existsb_exists.
  split.
  - intros [[[k v] [Hin Hc]] | [[k v] [Hin Hs]]].
    + exists 0. eapply occurs_here; eauto.
    + destruct (proj1 (IH (k, v) Hin) Hs) as [d Hd].
      exists (S d). eapply occurs_below; eauto.
  - intros [d Hd]. inversion Hd; subst.
    + left. exists (k, v). auto.
    + right. exists (k, v). split; [assumption|].
      apply (proj2 (IH (k, v) H0)). eauto.
Qed.

Lemma occurs_at_mono (c1 c2 : Package -> bool) t d :
  (forall k, c1 k = true -> c2 k = true) ->
  occurs_at c1 t d -> occurs_at c2 t d.
Proof.
  intros Himp Ho. induction Ho.
  - eapply occurs_here; eauto.
  - eapply occurs_below; eauto.
Qed.

(** C1 (code_bug): on the diamond [r -> a -> b=1], [r -> c -> b=2],
    [add_package] succeeds and the tree holds the name [b] twice: the
    duplicate guard asks [root], which receives none of the entries of the
    ongoing construction before it ends. *)
Lemma add_package_diamond_keeps_both_versions :
  exists t,
    add_package 5 repo_diamond new pkg_r = Some (Ok t) /\
    tree_names t = ["r"; "a"; "b"; "c"; "b"] /\
    count_occ string_dec (tree_names t) "b" = 2.
Proof.
  eexists. split; [vm_compute; reflexivity|]. split; vm_compute; reflexivity.
Qed.

(** On the cycle [a -> b -> a] the recursion of [add_package_tree] never
    ends: every depth bound is exhausted. *)
Lemma add_package_tree_cycle_out_of_fuel : forall fuel,
  (forall this, add_package_tree fuel repo_cycle new this cyc_a = None) /\
  (forall this, add_package_tree fuel repo_cycle new this cyc_b = None).
Proof.
  induction fuel as [|fuel [Ha Hb]]; [split; reflexivity|].
  split; intros this; simpl.
  - rewrite Hb. reflexivity.
  - rewrite Ha. reflexivity.
Qed.

(** C4 (code_bug): [Tree::add_package] does not terminate on the
    repository where [a] depends on [b] and [b] on [a]: for no depth bound
    does the construction finish, with a tree or with an error. *)
Lemma add_package_cycle_diverges :
  ~ exists fuel r, add_package fuel repo_cycle new cyc_a = Some r.
Proof.
  intros [fuel [r H]]. unfold add_package in H.
  rewrite (proj1 (add_package_tree_cycle_out_of_fuel fuel)) in H.
  discriminate.
Qed.

(** The tree [add_package] builds for [a=1] alone. *)
Lemma add_package_single :
  add_package 3 [pkg "a" "1" []] new (pkg "a" "1" []) =
  Some (Ok (Node [(pkg "a" "1" [], Node [])])).
Proof. reflexivity. Qed.

(** C3 (counterexample): with [a=1] in the tree, [has_package] of [a=2]
    is true while [package_depth] of [a=2] is [None]. *)
Lemma has_package_not_package_depth :
  add_package 3 [pkg "a" "1" []] new (pkg "a" "1" []) =
    Some (Ok (Node [(pkg "a" "1" [], Node [])])) /\
  has_package (Node [(pkg "a" "1" [], Node [])]) (pkg "a" "2" []) = true /\
  package_depth (Node [(pkg "a" "1" [], Node [])]) (pkg "a" "2" []) = None.
Proof. split; [exact add_package_single|]. split; reflexivity. Qed.

(** C3 (amended): [has_package p] holds iff the depth search by the name
    of [p] finds something; [package_depth p], which compares name and
    version, finds something only if [has_package p] holds. *)
Theorem has_package_iff_depth_by_name : forall t p,
  (has_package t p = true <->
   exists d, package_depth_where t (fun k => name k =? name p) = Some d) /\
  (forall d, package_depth t p = Some d -> has_package t p = true).
Proof.
  intros t p. split.
  - rewrite has_package_occurs. unfold package_depth_where. split.
    + intros [d Hd].
      destruct (find_package_depth t 0 (fun k => name k =? name p)) eqn:E.
      * eauto.
      * exfalso. apply (proj1 (find_package_depth_None _ _ _) E d Hd).
    + intros [d Hd]. apply find_package_depth_sound in Hd.
      destruct Hd as [d' [_ Ho]]. eauto.
  - intros d Hd. apply has_package_occurs.
    unfold package_depth, package_depth_where in Hd.
    apply find_package_depth_sound in Hd. destruct Hd as [d' [_ Ho]].
    exists d'. revert Ho. apply occurs_at_mono.
    intros k Hk. unfold package_eqb in Hk.
    apply andb_true_iff in Hk. destruct Hk as [Hk _]. exact Hk.
Qed.


(** C8 (counterexample): [add_package] builds [tree_two_paths], where
    [p] occurs at depth 2 (under [b]) but [package_depth] answers 3, the
    depth under [a -> x] that its depth-first search meets first. *)
Lemma package_depth_not_breadth_first :
  add_package 5 repo_two_paths new pkg_top = Some (Ok tree_two_paths) /\
  occurs_at (fun k => package_eqb k pkg_p) tree_two_paths 2 /\
  package_depth tree_two_paths pkg_p = Some 3.
Proof.
  split; [vm_compute; reflexivity|]. split; [|reflexivity].
  eapply occurs_below; [left; reflexivity|].
  eapply occurs_below; [right; left; reflexivity|].
  eapply occurs_here; [left; reflexivity|reflexivity].
Qed.

(** C8 (amended): [package_depth p] is [Some d] only for a depth [d] at
    which [p] occurs (the top-level keys at depth 0), is [Some 0] when a
    top-level key equals [p], and is [None] exactly when [p] occurs
    nowhere. *)
Theorem package_depth_spec : forall t p,
  (forall d, package_depth t p = Some d ->
             occurs_at (fun k => package_eqb k p) t d) /\
  (occurs_at (fun k => package_eqb k p) t 0 -> package_depth t p = Some 0) /\
  (package_depth t p = None <->
   forall d, ~ occurs_at (fun k => package_eqb k p) t d).
Proof.
  intros t p. split; [|split].
  - intros d Hd. apply find_package_depth_sound in Hd.
    destruct Hd as [d' [-> Ho]]. exact Ho.
  - intros Ho. inversion Ho; subst. unfold package_depth,
      package_depth_where. simpl.
    replace (existsb (fun kv => package_eqb (fst kv) p) m) with true;
      [reflexivity|].
    symmetry. apply existsb_exists. exists (k, v). auto.
  - apply find_package_depth_None.
Qed.

(* ------------------------------------------------------------------ *)
(** ** Staging store *)

Module StagingFacts.
Import Staging.

Lemma list_entry_paths_ok bytes outputs :
  list_entry_paths bytes = Ok outputs -> outputs = header_paths bytes.
Proof.
  unfold list_entry_paths. revert outputs.
  induction bytes as [|[e|] bytes IH]; simpl; intros outputs H.
  - injection H as <-. reflexivity.
  - destruct (collect_results _) eqn:E; [|discriminate].
    injection H as <-. rewrite (IH _ eq_refl). reflexivity.
  - discriminate.
Qed.

(** The loading loop only appends to the index, only paths of regular
    files among its input; on success it appends exactly what it returns,
    the non-directory paths. *)
Lemma load_outputs_spec outputs : forall st fs st' r,
  load_outputs st fs outputs = (st', r) ->
  exists extra,
    index st' = app (index st) extra /\
    (forall p, In p extra -> In p outputs /\ is_file fs p = true) /\
    (forall ps, r = Ok ps ->
       ps = extra /\ extra = filter (fun p => negb (is_dir fs p)) outputs).
Proof.
  induction outputs as [|p ps IH]; simpl; intros st fs st' r H.
  - injection H as <- <-. exists []. rewrite app_nil_r.
    split; [reflexivity|]. split; [intros _ []|]. intros ps [= <-]. auto.
  - destruct (is_dir fs p) eqn:Hd.
    + destruct (IH _ _ _ _ H) as [extra [Hi [Hin Hok]]].
      exists extra. split; [exact Hi|]. split.
      * intros q Hq. destruct (Hin q Hq). auto.
      * exact Hok.
    + unfold load_from_path in H.
      destruct (has_parent_dir p);
        [injection H as <- <-; exists []; rewrite app_nil_r;
         split; [reflexivity|]; split; [intros _ []|intros ? [=]]|].
      destruct (existsb (path_eqb p) (index st));
        [injection H as <- <-; exists []; rewrite app_nil_r;
         split; [reflexivity|]; split; [intros _ []|intros ? [=]]|].
      destruct (negb (is_file fs p)) eqn:Hf;
        [injection H as <- <-; exists []; rewrite app_nil_r;
         split; [reflexivity|]; split; [intros _ []|intros ? [=]]|].
      apply negb_false_iff in Hf.
      destruct (load_outputs _ fs ps) as [st1 r1] eqn:E.
      destruct (IH _ _ _ _ E) as [extra [Hi [Hin Hok]]]. simpl in Hi.
      exists (p :: extra).
      assert (Hidx : index st' = app (index st) (p :: extra)).
      { destruct r1; injection H as <- _; rewrite Hi, <- app_assoc;
        reflexivity. }
      split; [exact Hidx|]. split.
      * intros q [<-|Hq]; [auto|]. destruct (Hin q Hq). auto.
      * intros qs Hqs. destruct r1 as [qs1|e1]; injection H as _ <-;
          [|discriminate].
        injection Hqs as <-. destruct (Hok qs1 eq_refl) as [-> ->].
        auto.
Qed.







(** C7 (counterexample): a store whose index already holds [old] takes
    the archive with the file [b]; the call returns [[b]] but the index
    afterwards holds [old] and [b]. *)
Lemma write_tar_index_keeps_previous :
  write_files_from_tar_stream (mkStore [["old"]]) [(["old"], File)] tar_b =
  ([(["b"], File); (["old"], File)], mkStore [["old"]; ["b"]], Ok [["b"]]).
Proof. reflexivity. Qed.

(** C7 (amended): when the call returns [Ok ps], every path of [ps] is a
    regular file under the root, [ps] is the list of the archive's entry
    paths that are not directories after unpacking (in archive order),
    and the index is the index before the call extended by exactly
    [ps]. *)
Theorem write_files_ok_spec : forall st fs stream fs' st' ps,
  write_files_from_tar_stream st fs stream = (fs', st', Ok ps) ->
  exists bytes,
    try_concat stream = Ok bytes /\
    (forall p, In p ps -> is_file fs' p = true) /\
    ps = filter (fun p => negb (is_dir fs' p)) (header_paths bytes) /\
    index st' = app (index st) ps.
Proof.
  intros st fs stream fs' st' ps H. unfold write_files_from_tar_stream in H.
  destruct (try_concat stream) as [bytes|e0] eqn:Hc; [|discriminate].
  destruct (list_entry_paths bytes) as [outputs|e0] eqn:Hl; [|discriminate].
  destruct (unpack fs (entries bytes)) as [fs1 [[]|e1]] eqn:Hu;
    [|discriminate].
  destruct (load_outputs st fs1 outputs) as [st1 r1] eqn:Hlo.
  injection H as <- <- ->.
  destruct (load_outputs_spec _ _ _ _ _ Hlo) as [extra [Hi [Hin Hok]]].
  destruct (Hok ps eq_refl) as [-> Hf].
  exists bytes. split; [reflexivity|]. split.
  - intros p Hp. apply (Hin p Hp).
  - rewrite <- (list_entry_paths_ok _ _ Hl). auto.
Qed.

(** The amended C7 at a store holding [old] and the archive with [b]. *)
Lemma write_files_ok_spec_witness :
  exists fs' st' ps,
    write_files_from_tar_stream (mkStore [["old"]]) [(["old"], File)] tar_b =
      (fs', st', Ok ps) /\
    exists bytes,
      try_concat tar_b = Ok bytes /\
      (forall p, In p ps -> is_file fs' p = true) /\
      ps = filter (fun p => negb (is_dir fs' p)) (header_paths bytes) /\
      index st' = app (index (mkStore [["old"]])) ps.
Proof.
  do 3 eexists. split; [vm_compute; reflexivity|].
  apply (write_files_ok_spec (mkStore [["old"]]) [(["old"], File)] tar_b).
  vm_compute. reflexivity.
Defined.

End StagingFacts.

(* ------------------------------------------------------------------ *)
(** ** Runnable jobs *)

Module RunnableFacts.
Import Runnable.

Section Sorting.
Context {Artifact : Type} (leb : Artifact -> Artifact -> bool).

Lemma insert_sorted_perm x l : Permutation (x :: l) (insert_sorted leb x l).
Proof.
  induction l as [|y l IH]; simpl; [reflexivity|].
  destruct (leb x y); [reflexivity|].
  rewrite perm_swap. constructor. exact IH.
Qed.

Lemma sort_perm l : Permutation l (sort leb l).
Proof.
  induction l as [|x l IH]; simpl; [reflexivity|].
  rewrite <- insert_sorted_perm. constructor. exact IH.
Qed.

Section Total.
Hypothesis leb_total : forall x y, leb x y = true \/ leb y x = true.

Lemma insert_sorted_sorted x l :
  Sorted (fun a b => leb a b = true) l ->
  Sorted (fun a b => leb a b = true) (insert_sorted leb x l).
Proof.
  induction 1 as [|y l Hs IH Hhd]; simpl.
  - repeat constructor.
  - destruct (leb x y) eqn:Exy.
    + constructor; [constructor; assumption|]. constructor. exact Exy.
    + assert (Eyx : leb y x = true).
      { destruct (leb_total x y); congruence. }
      constructor; [exact IH|].
      destruct l as [|z l]; simpl; [constructor; exact Eyx|].
      destruct (leb x z); constructor; [exact Eyx|].
      inversion Hhd; assumption.
Qed.

Lemma sort_sorted l : Sorted (fun a b => leb a b = true) (sort leb l).
Proof.
  induction l as [|x l IH]; simpl; [constructor|].
  apply insert_sorted_sorted. exact IH.
Qed.

Hypothesis leb_trans :
  forall x y z, leb x y = true -> leb y z = true -> leb x z = true.

(** The head of the sorted list is a least element. *)
Lemma sort_head_least l x r :
  sort leb l = x :: r -> forall y, In y l -> leb x y = true.
Proof.
  intros Hs y Hy.
  assert (Hss : StronglySorted (fun a b => leb a b = true) (x :: r)).
  { rewrite <- Hs. apply Sorted_StronglySorted; [|apply sort_sorted].
    intros a b c. apply leb_trans. }
  apply (Permutation_in y (sort_perm l)) in Hy. rewrite Hs in Hy.
  destruct Hy as [<-|Hy].
  - destruct (leb_total x x); assumption.
  - inversion Hss as [|? ? _ Hall]. rewrite Forall_forall in Hall. auto.
Qed.

End Total.
End Sorting.

Lemma collect_results_ok {A : Type} (l : list (result Error A)) xs :
  collect_results l = Ok xs -> l = map Ok xs.
Proof.
  revert xs. induction l as [|[a|e] l IH]; simpl; intros xs H.
  - injection H as <-. reflexivity.
  - destruct (collect_results l) eqn:E; [|discriminate].
    injection H as <-. simpl. rewrite (IH _ eq_refl). reflexivity.
  - discriminate.
Qed.

Lemma collect_results_all_ok {A : Type} (xs : list A) :
  collect_results (map Ok xs) = Ok xs.
Proof. induction xs as [|x xs IH]; simpl; [|rewrite IH]; reflexivity. Qed.

(** Each input that resolves to a value makes [collect_unordered]
    succeed, whatever the completion order. *)
Lemma collect_unordered_all_ok {Artifact : Type}
    (rs : list (result Error (JobResource Artifact))) out :
  (forall r, In r rs -> exists v, r = Ok v) ->
  collect_unordered rs out -> exists vs, out = Ok vs.
Proof.
  intros Hall [rs' [Hp ->]].
  assert (Hall' : forall r, In r rs' -> exists v, r = Ok v).
  { intros r Hr. apply Hall. apply (Permutation_in r (Permutation_sym Hp)).
    exact Hr. }
  clear Hp Hall. induction rs' as [|r rs' IH]; simpl; [eauto|].
  destruct (Hall' r (or_introl eq_refl)) as [v ->].
  destruct IH as [vs ->]; [intros; apply Hall'; right; assumption|].
  eauto.
Qed.

(** A dependency whose artifact set is non-empty resolves. *)
Lemma build_resource_found {Dependency Artifact : Type} parse lookup
    (leb : Artifact -> Artifact -> bool) (dep : Dependency) name vers a :
  parse dep = Ok (name, vers) -> lookup name vers = Ok a -> a <> [] ->
  exists found, snd (build_resource parse lookup leb dep) =
                Ok (JRArtifact found) /\ hd_error (sort leb a) = Some found.
Proof.
  intros Hp Hl Hne. unfold build_resource. rewrite Hp, Hl.
  destruct a as [|x a']; [congruence|].
  destruct (sort leb (x :: a')) as [|f r] eqn:Es.
  - pose proof (Permutation_length (sort_perm leb (x :: a'))) as Hlen.
    rewrite Es in Hlen. discriminate.
  - exists f. auto.
Qed.

(** When the script renders and every build and runtime dependency has a
    non-empty artifact set, [build_from_job] succeeds in every completion
    order: an ambiguous set is no failure. *)
Lemma build_from_job_ok_if_all_found
    {Package Dependency Script Artifact : Type}
    (build_deps runtime_deps : Package -> list Dependency) parse lookup
    (leb : Artifact -> Artifact -> bool) (script_build : Job Package -> result Error Script)
    job script r :
  build_from_job build_deps runtime_deps parse lookup leb script_build job r ->
  script_build job = Ok script ->
  (forall d, In d (app (build_deps (job_package job))
                       (runtime_deps (job_package job))) ->
     exists n v a, parse d = Ok (n, v) /\ lookup n v = Ok a /\ a <> []) ->
  exists rj, r = Ok rj.
Proof.
  intros Hb Hs Hall. destruct Hb as [e He|script' build rt Hs' Hbu Hrt];
    [congruence|].
  assert (Hres : forall ds, (forall d, In d ds -> In d (app
      (build_deps (job_package job)) (runtime_deps (job_package job)))) ->
      forall x, In x (map (fun d => snd (build_resource parse lookup leb d)) ds) ->
      exists v, x = Ok v).
  { intros ds Hin x Hx. apply in_map_iff in Hx. destruct Hx as [d [<- Hd]].
    destruct (Hall d (Hin d Hd)) as [n [v [a [Hp [Hl Hne]]]]].
    destruct (build_resource_found parse lookup leb d n v a Hp Hl Hne)
      as [f [-> _]]. eauto. }
  destruct (collect_unordered_all_ok _ _
              (Hres _ (fun d H => in_or_app _ _ d (or_introl H))) Hbu)
    as [b ->].
  destruct (collect_unordered_all_ok _ _
              (Hres _ (fun d H => in_or_app _ _ d (or_intror H))) Hrt)
    as [rs ->].
  eauto.
Qed.

(** C5: when the dependency parses to [(name, vers)], an empty artifact
    set fails the resolution with [MissingDependency] (and no warning);
    with two or more artifacts the resolution succeeds with the first
    artifact of the sorted set (an element of the set, least for a total
    preorder), logging the ambiguity warnings; and a build whose every
    dependency has a non-empty set succeeds. *)
Theorem build_resource_resolution {Dependency Artifact : Type}
    parse lookup (leb : Artifact -> Artifact -> bool) (dep : Dependency)
    name vers :
  parse dep = Ok (name, vers) ->
  (lookup name vers = Ok [] ->
   build_resource parse lookup leb dep =
   ([], Err (Context "Building a runnable job"
               (MissingDependency name vers)))) /\
  (forall a, lookup name vers = Ok a -> 2 <= length a ->
   exists found,
     build_resource parse lookup leb dep =
       (ambiguity_warnings name vers, Ok (JRArtifact found)) /\
     hd_error (sort leb a) = Some found /\ In found a /\
     ((forall x y, leb x y = true \/ leb y x = true) ->
      (forall x y z, leb x y = true -> leb y z = true -> leb x z = true) ->
      forall y, In y a -> leb found y = true)) /\
  (forall {Package Script : Type} (build_deps runtime_deps : Package -> list Dependency)
     (script_build : Job Package -> result Error Script) job script r,
   build_from_job build_deps runtime_deps parse lookup leb script_build job r ->
   script_build job = Ok script ->
   (forall d, In d (app (build_deps (job_package job))
                        (runtime_deps (job_package job))) ->
      exists n v a, parse d = Ok (n, v) /\ lookup n v = Ok a /\ a <> []) ->
   exists rj, r = Ok rj).
Proof.
  intros Hp. split; [|split].
  - intros Hl. unfold build_resource. rewrite Hp, Hl. reflexivity.
  - intros a Hl Hlen.
    destruct a as [|x [|y a']]; simpl in Hlen; [lia|lia|].
    destruct (sort leb (x :: y :: a')) as [|f r] eqn:Es.
    + pose proof (Permutation_length (sort_perm leb (x :: y :: a'))) as H.
      rewrite Es in H. discriminate.
    + assert (Hin : In f (x :: y :: a')).
      { apply (Permutation_in f (Permutation_sym (sort_perm leb _))).
        rewrite Es. left. reflexivity. }
      exists f. unfold build_resource. rewrite Hp, Hl, Es.
      split; [reflexivity|]. split; [reflexivity|]. split; [exact Hin|].
      intros Htot Htr. apply (sort_head_least leb Htot Htr _ _ _ Es).
  - intros Package Script build_deps runtime_deps script_build job script r.
    apply build_from_job_ok_if_all_found.
Qed.

(** C6: when [build_from_job] succeeds, its resources are the resources of
    the build dependencies (one per dependency, in completion order)
    followed by those of the runtime dependencies, so their number is the
    number of build plus runtime dependencies. *)
Theorem build_from_job_resources
    {Package Dependency Script Artifact : Type}
    (build_deps runtime_deps : Package -> list Dependency) parse lookup
    (leb : Artifact -> Artifact -> bool) (script_build : Job Package -> result Error Script)
    job rj :
  build_from_job build_deps runtime_deps parse lookup leb script_build job
    (Ok rj) ->
  exists b r,
    rj_resources rj = app b r /\
    length (rj_resources rj) =
      length (build_deps (job_package job)) +
      length (runtime_deps (job_package job)) /\
    Permutation (map (fun d => snd (build_resource parse lookup leb d))
                     (build_deps (job_package job))) (map Ok b) /\
    Permutation (map (fun d => snd (build_resource parse lookup leb d))
                     (runtime_deps (job_package job))) (map Ok r).
Proof.
  intros H. inversion H as [|script build rt Hs Hbu Hrt Heq].
  destruct build as [b|e]; [|discriminate].
  destruct rt as [r|e]; [|discriminate].
  injection Heq as <-. simpl. exists b, r.
  destruct Hbu as [bs' [Hpb Hcb]]. destruct Hrt as [rs' [Hpr Hcr]].
  symmetry in Hcb, Hcr.
  apply collect_results_ok in Hcb. apply collect_results_ok in Hcr.
  subst bs' rs'.
  split; [reflexivity|]. split; [|auto].
  rewrite length_app.
  apply Permutation_length in Hpb. apply Permutation_length in Hpr.
  rewrite !length_map in Hpb, Hpr. lia.
Qed.


(** C5 at the dependency [b], whose three artifacts are ambiguous. *)
Lemma build_resource_resolution_witness :
  ex_parse "b" = Ok ("b", "1") /\
  (ex_lookup "b" "1" = Ok [] ->
   build_resource ex_parse ex_lookup Nat.leb "b" =
   ([], Err (Context "Building a runnable job"
               (MissingDependency "b" "1")))) /\
  (forall a, ex_lookup "b" "1" = Ok a -> 2 <= length a ->
   exists found,
     build_resource ex_parse ex_lookup Nat.leb "b" =
       (ambiguity_warnings "b" "1", Ok (JRArtifact found)) /\
     hd_error (sort Nat.leb a) = Some found /\ In found a /\
     ((forall x y, Nat.leb x y = true \/ Nat.leb y x = true) ->
      (forall x y z, Nat.leb x y = true -> Nat.leb y z = true ->
                     Nat.leb x z = true) ->
      forall y, In y a -> Nat.leb found y = true)) /\
  (forall {Package Script : Type}
     (build_deps runtime_deps : Package -> list string)
     (script_build : Job Package -> result Error Script) job script r,
   build_from_job build_deps runtime_deps ex_parse ex_lookup Nat.leb
     script_build job r ->
   script_build job = Ok script ->
   (forall d, In d (app (build_deps (job_package job))
                        (runtime_deps (job_package job))) ->
      exists n v a, ex_parse d = Ok (n, v) /\ ex_lookup n v = Ok a /\
                    a <> []) ->
   exists rj, r = Ok rj).
Proof.
  split; [reflexivity|].
  apply (build_resource_resolution ex_parse ex_lookup Nat.leb "b" "b" "1").
  reflexivity.
Defined.

(** C6 at [ex_job]: build dependency [b], runtime dependency [c]. *)
Lemma build_from_job_resources_witness :
  build_from_job fst snd ex_parse ex_lookup Nat.leb ex_script ex_job
    (Ok (mkRunnableJob "uuid" (["b"], ["c"]) "img" "script"
           [JRArtifact 1; JRArtifact 7])) /\
  exists b r,
    [JRArtifact 1; JRArtifact 7] = app b r /\
    length [@JRArtifact nat 1; JRArtifact 7] =
      length (fst (job_package ex_job)) + length (snd (job_package ex_job)) /\
    Permutation (map (fun d => snd (build_resource ex_parse ex_lookup Nat.leb d))
                     (fst (job_package ex_job))) (map Ok b) /\
    Permutation (map (fun d => snd (build_resource ex_parse ex_lookup Nat.leb d))
                     (snd (job_package ex_job))) (map Ok r).
Proof.
  assert (H : build_from_job fst snd ex_parse ex_lookup Nat.leb ex_script
                ex_job (Ok (mkRunnableJob "uuid" (["b"], ["c"]) "img" "script"
                              [JRArtifact 1; JRArtifact 7]))).
  { apply (build_joined _ _ _ _ _ _ _ _ _ _ ex_job "script"
             (Ok [JRArtifact 1]) (Ok [JRArtifact 7])).
    - reflexivity.
    - exists [Ok (JRArtifact 1)]. split; [vm_compute; constructor; constructor|reflexivity].
    - exists [Ok (JRArtifact 7)]. split; [vm_compute; constructor; constructor|reflexivity]. }
  split; [exact H|].
  exact (build_from_job_resources fst snd ex_parse ex_lookup Nat.leb ex_script
           ex_job _ H).
Defined.

End RunnableFacts.

(* ------------------------------------------------------------------ *)
(** ** The [db] query windows *)

Module DbFacts.
Import Db.

Lemma get_limit_zero arg default_limit :
  match arg with Some l => l | None => default_limit end = 0%Z ->
  get_limit arg default_limit = Ok i64_max.
Proof. intros H. unfold get_limit. rewrite H. reflexivity. Qed.

Lemma sql_limit_all n l :
  (Z.of_nat (length l) <= n)%Z -> sql_limit n l = l.
Proof.
  revert n. induction l as [|r l IH]; simpl; intros n H; [reflexivity|].
  destruct (Z.leb_spec n 0); [lia|]. rewrite IH; [reflexivity|lia].
Qed.

Lemma order_by_id_desc_length l :
  length (order_by_id_desc l) = length l.
Proof.
  induction l as [|r l IH]; simpl; [reflexivity|].
  rewrite <- IH. clear IH. generalize (order_by_id_desc l) as m.
  induction m as [|r' m IH]; simpl; [reflexivity|].
  destruct (Z.leb _ _); simpl; [reflexivity|]. rewrite IH. reflexivity.
Qed.

(** A limit of 0 shows every row: [db artifacts] then shows all rows in
    ascending order of [id]. *)
Lemma artifacts_limit_zero rows arg default_limit :
  match arg with Some l => l | None => default_limit end = 0%Z ->
  (Z.of_nat (length rows) <= i64_max)%Z ->
  exists n, get_limit arg default_limit = Ok n /\
            artifacts rows n = rev (order_by_id_desc rows).
Proof.
  intros H0 Hlen. exists i64_max. split; [apply get_limit_zero; exact H0|].
  unfold artifacts. rewrite sql_limit_all; [reflexivity|].
  rewrite order_by_id_desc_length. exact Hlen.
Qed.

(** C9 (code_bug): with the limit 0, [db artifacts] shows the two rows
    oldest first, [db releases] newest first: it omits the [.rev()] of
    its siblings. *)
Lemma releases_window_not_reversed :
  get_limit None 0 = Ok i64_max /\
  artifacts two_rows i64_max = [mkRow 1 "older"; mkRow 2 "newer"] /\
  jobs two_rows i64_max = [mkRow 1 "older"; mkRow 2 "newer"] /\
  submits two_rows i64_max = [mkRow 1 "older"; mkRow 2 "newer"] /\
  releases two_rows i64_max = [mkRow 2 "newer"; mkRow 1 "older"].
Proof. repeat split; vm_compute; reflexivity. Qed.

End DbFacts.

(* ------------------------------------------------------------------ *)
(** ** Endpoints *)

Module EndpointFacts.
Import EndpointSelection.

(** C10: [connect_to_endpoints] builds configurations for exactly the
    configured endpoints whose name is requested, each from the
    configured entry and the docker requirements; a requested name that
    is not configured gives no configuration and no error, and when no
    requested name is configured the list is empty. *)
Theorem endpoint_configurations_spec docker endpoint_names :
  map endpoint_name (endpoint_configurations docker endpoint_names) =
    filter (fun n => existsb (fun m => m =? n) endpoint_names)
           (map fst (endpoints docker)) /\
  (forall n, In n (map endpoint_name
                     (endpoint_configurations docker endpoint_names)) <->
             In n endpoint_names /\ In n (map fst (endpoints docker))) /\
  (forall ec, In ec (endpoint_configurations docker endpoint_names) ->
     In (endpoint_name ec, endpoint ec) (endpoints docker) /\
     required_images ec = images docker /\
     required_docker_versions ec = docker_versions docker /\
     required_docker_api_versions ec = docker_api_versions docker) /\
  ((forall n, In n endpoint_names -> ~ In n (map fst (endpoints docker))) ->
   endpoint_configurations docker endpoint_names = []).
Proof.
  unfold endpoint_configurations.
  assert (Hnames : map endpoint_name
     (map (fun '(ep_name, ep_cfg) =>
             mkEndpointConfiguration ep_name ep_cfg (images docker)
               (docker_versions docker) (docker_api_versions docker))
          (filter (fun '(ep_name, _) =>
                     existsb (fun n => n =? ep_name) endpoint_names)
                  (endpoints docker))) =
     filter (fun n => existsb (fun m => m =? n) endpoint_names)
            (map fst (endpoints docker))).
  { induction (endpoints docker) as [|[n e] eps IH]; simpl; [reflexivity|].
    destruct (existsb (fun m => m =? n) endpoint_names); simpl;
      rewrite IH; reflexivity. }
  split; [exact Hnames|]. split; [|split].
  - intros n. rewrite Hnames, filter_In, existsb_exists. split.
    + intros [Hin [m [Hm Heq]]]. apply String.eqb_eq in Heq. subst m. auto.
    + intros [Hn Hin]. split; [exact Hin|]. exists n.
      split; [exact Hn|apply String.eqb_refl].
  - intros ec Hec. apply in_map_iff in Hec.
    destruct Hec as [[n e] [<- Hin]]. apply filter_In in Hin.
    simpl. split; [exact (proj1 Hin)|auto].
  - intros Hnone. clear Hnames. revert Hnone.
    induction (endpoints docker) as [|[n e] eps IH]; simpl; intros H;
      [reflexivity|].
    destruct (existsb (fun m => m =? n) endpoint_names) eqn:Ex.
    + exfalso. apply existsb_exists in Ex. destruct Ex as [m [Hm Heq]].
      apply String.eqb_eq in Heq. subst m.
      apply (H n Hm). left. reflexivity.
    + apply IH. intros n' Hn' Hin. apply (H n' Hn'). right. exact Hin.
Qed.

End EndpointFacts.

(* ------------------------------------------------------------------ *)
(** ** Further properties of the code *)

Module TreeFacts.

Lemma add_package_tree_S f repo root this p :
  add_package_tree (S f) repo root this p =
  match each_dependency f repo root (get_all_dependencies p) new with
  | Some (Ok subtree) => Some (Ok (tree_insert p subtree this))
  | r => r
  end.
Proof. reflexivity. Qed.

Lemma package_compare_eq a b :
  package_compare a b = Eq -> name a = name b /\ version a = version b.
Proof.
  unfold package_compare.
  destruct (String.compare (name a) (name b)) eqn:E; try discriminate.
  intros Hv. split; apply String.compare_eq_iff; assumption.
Qed.

Lemma map_insert_entries k v m k' v' :
  In (k', v') (map_insert k v m) ->
  In (k', v') m \/
  (v' = v /\ (k' = k \/ (In k' (map fst m) /\ package_compare k k' = Eq))).
Proof.
  induction m as [|[k0 v0] m IH]; simpl.
  - intros [[= <- <-]|[]]. right. auto.
  - destruct (package_compare k k0) eqn:E; simpl.
    + intros [[= <- <-]|H]; [right; split; [reflexivity|right; auto]|auto].
    + intros [[= <- <-]|[[= <- <-]|H]]; [right; auto|auto|auto].
    + intros [[= <- <-]|H]; [auto|].
      destruct (IH H) as [Hin|[-> [->|[Hin He]]]]; intuition auto.
Qed.

Lemma map_insert_keeps k v m k' v' :
  In (k', v') m -> package_compare k k' <> Eq ->
  In (k', v') (map_insert k v m).
Proof.
  induction m as [|[k0 v0] m IH]; simpl; [intros []|].
  intros Hin Hne. destruct (package_compare k k0) eqn:E; simpl.
  - destruct Hin as [[= <- <-]|Hin]; [congruence|auto].
  - auto.
  - destruct Hin as [[= <- <-]|Hin]; auto.
Qed.

Lemma map_insert_key k v m :
  exists k', In (k', v) (map_insert k v m) /\
             (k' = k \/ package_compare k k' = Eq).
Proof.
  induction m as [|[k0 v0] m IH]; simpl; [eauto|].
  destruct (package_compare k k0) eqn:E; simpl; [eauto|eauto|].
  destruct IH as [k' [Hin Hk]]. eauto.
Qed.

Lemma map_insert_old_keys k v m k' :
  In k' (map fst m) -> In k' (map fst (map_insert k v m)).
Proof.
  induction m as [|[k0 v0] m IH]; simpl; [intros []|].
  destruct (package_compare k k0); simpl; intros [<-|H]; auto.
Qed.

Lemma map_insert_keys k v m k' :
  In k' (map fst (map_insert k v m)) -> In k' (map fst m) \/ k' = k.
Proof.
  intros H. apply in_map_iff in H. destruct H as [[k1 v1] [<- Hin]].
  destruct (map_insert_entries _ _ _ _ _ Hin) as [H|[_ [->|[H _]]]]; simpl.
  - left. apply in_map_iff. exists (k1, v1). auto.
  - auto.
  - auto.
Qed.

Lemma add_package_tree_error_cause fuel : forall repo root this p pack,
  add_package_tree fuel repo root this p = Some (Err (DuplicatePackage pack)) ->
  (exists n c, pack = find_with_version_constraint repo n c) /\
  (exists q, In q pack /\ has_package root q = true).
Proof.
  induction fuel as [|f IH]; intros repo root this p pack H; [discriminate|].
  rewrite add_package_tree_S in H.
  assert (Hf : forall pk acc,
    follow_packages f repo root pk acc = Some (Err (DuplicatePackage pack)) ->
    (exists n c, pack = find_with_version_constraint repo n c) /\
    (exists q, In q pack /\ has_package root q = true)).
  { induction pk as [|q pk IHpk]; intros acc Hp; simpl in Hp; [discriminate|].
    destruct (add_package_tree f repo root acc q) as [[t|[e]]|] eqn:E.
    - exact (IHpk _ Hp).
    - injection Hp as ->. exact (IH _ _ _ _ _ E).
    - discriminate. }
  assert (Hd : forall ds acc,
    each_dependency f repo root ds acc = Some (Err (DuplicatePackage pack)) ->
    (exists n c, pack = find_with_version_constraint repo n c) /\
    (exists q, In q pack /\ has_package root q = true)).
  { induction ds as [|[n c] ds IHds]; intros acc Hp; simpl in Hp; [discriminate|].
    destruct (existsb _ _) eqn:Ex.
    - injection Hp as <-. split; [eauto|]. apply existsb_exists in Ex. exact Ex.
    - destruct (follow_packages f repo root _ acc) as [[t|[e]]|] eqn:E.
      + exact (IHds _ Hp).
      + injection Hp as ->. exact (Hf _ _ E).
      + discriminate. }
  destruct (each_dependency f repo root (get_all_dependencies p) new)
    as [[t|[e]]|] eqn:E; [discriminate| |discriminate].
  injection H as ->. exact (Hd _ _ E).
Qed.

(** X1: when [Tree::add_package] fails with the duplicate-version
    error, the packages it lists are those the repository finds for one
    dependency (name and version constraint), and one of them has a name
    already in the tree [add_package] was called on. *)
Theorem add_package_error_cause fuel repo self p :
  match add_package fuel repo self p with
  | Some (Err (DuplicatePackage pack)) =>
      (exists n c, pack = find_with_version_constraint repo n c) /\
      (exists q, In q pack /\ has_package self q = true)
  | _ => True
  end.
Proof.
  destruct (add_package fuel repo self p) as [[t|[pack]]|] eqn:E; auto.
  exact (add_package_tree_error_cause _ _ _ _ _ _ E).
Qed.

(** X2: [Tree::add_package] on a new, empty tree never fails with the
    duplicate-version error: the check only consults the tree it was
    called on, which stays empty until the construction is done. *)
Theorem add_package_new_never_fails fuel repo p pack :
  add_package fuel repo new p <> Some (Err (DuplicatePackage pack)).
Proof.
  intros H.
  destruct (add_package_tree_error_cause _ _ _ _ _ _ H) as [_ [q [_ Hq]]].
  discriminate.
Qed.

Lemma add_package_new_never_fails_witness :
  add_package 5 repo_diamond new pkg_r <> Some (Err (DuplicatePackage [])).
Proof. exact (add_package_new_never_fails 5 repo_diamond pkg_r _). Defined.

Lemma add_package_tree_ok fuel repo root this p t :
  add_package_tree fuel repo root this p = Some (Ok t) ->
  exists st, t = tree_insert p st this.
Proof.
  destruct fuel as [|f]; [discriminate|]. rewrite add_package_tree_S.
  destruct (each_dependency f repo root (get_all_dependencies p) new)
    as [[st|e]|]; intros H; try discriminate.
  injection H as <-. eauto.
Qed.

(** X3: a successful [Tree::add_package] puts the package at depth 0 of
    the tree, keeps every package the tree had at its top level, and adds
    no other one; entries of other packages keep their subtrees. *)
Theorem add_package_inserts_at_top fuel repo self p t :
  add_package fuel repo self p = Some (Ok t) ->
  package_depth t p = Some 0 /\
  (forall k, In k (packages self) -> In k (packages t)) /\
  (forall k, In k (packages t) -> In k (packages self) \/ k = p) /\
  (forall k v, In (k, v) (root_of self) -> package_compare p k <> Eq ->
               In (k, v) (root_of t)).
Proof.
  intros H. destruct (add_package_tree_ok _ _ _ _ _ _ H) as [st ->].
  destruct self as [m]. unfold tree_insert, packages. simpl.
  split; [|split; [|split]].
  - unfold package_depth, package_depth_where. simpl.
    destruct (map_insert_key p st m) as [k' [Hin Hk]].
    replace (existsb (fun kv => package_eqb (fst kv) p) (map_insert p st m))
      with true; [reflexivity|].
    symmetry. apply existsb_exists. exists (k', st). split; [exact Hin|].
    simpl. unfold package_eqb.
    destruct Hk as [->|Hk].
    + rewrite !String.eqb_refl. reflexivity.
    + destruct (package_compare_eq _ _ Hk) as [Hn Hv].
      rewrite Hn, Hv, !String.eqb_refl. reflexivity.
  - apply map_insert_old_keys.
  - apply map_insert_keys.
  - intros k v Hin Hne. apply map_insert_keeps; assumption.
Qed.

Lemma add_package_inserts_at_top_witness :
  add_package 5 repo_two_paths new pkg_top = Some (Ok tree_two_paths) /\
  package_depth tree_two_paths pkg_top = Some 0 /\
  (forall k, In k (packages new) -> In k (packages tree_two_paths)) /\
  (forall k, In k (packages tree_two_paths) -> In k (packages new) \/ k = pkg_top) /\
  (forall k v, In (k, v) (root_of new) -> package_compare pkg_top k <> Eq ->
               In (k, v) (root_of tree_two_paths)).
Proof.
  assert (H : add_package 5 repo_two_paths new pkg_top = Some (Ok tree_two_paths))
    by (vm_compute; reflexivity).
  split; [exact H|]. exact (add_package_inserts_at_top _ _ _ _ _ H).
Defined.

Lemma repo_keys_unique_spec repo q q' :
  repo_keys_unique repo = true -> In q repo -> In q' repo ->
  name q = name q' -> version q = version q' -> q = q'.
Proof.
  intros Hu Hq Hq' Hn Hv. unfold repo_keys_unique in Hu.
  rewrite forallb_forall in Hu. specialize (Hu q Hq).
  apply Nat.eqb_eq in Hu.
  set (f := fun q' => (name q =? name q') && (version q =? version q')) in Hu.
  assert (H1 : In q (filter f repo)).
  { apply filter_In. split; [exact Hq|]. unfold f.
    rewrite !String.eqb_refl. reflexivity. }
  assert (H2 : In q' (filter f repo)).
  { apply filter_In. split; [exact Hq'|]. unfold f.
    rewrite Hn, Hv, !String.eqb_refl. reflexivity. }
  destruct (filter f repo) as [|x [|y l]]; simpl in Hu; try discriminate.
  destruct H1 as [<-|[]]. destruct H2 as [<-|[]]. reflexivity.
Qed.

Lemma find_in_repo repo n c q :
  In q (find_with_version_constraint repo n c) -> In q repo.
Proof. unfold find_with_version_constraint. rewrite filter_In. tauto. Qed.

Lemma resolved_new repo : resolved repo new.
Proof. constructor. intros k st []. Qed.

Lemma resolved_insert repo q st acc :
  repo_keys_unique repo = true ->
  resolved repo acc -> (forall k, In k (packages acc) -> In k repo) ->
  In q repo ->
  (forall x, In x (packages st) <->
     exists n c, In (n, c) (get_all_dependencies q) /\
                 In x (find_with_version_constraint repo n c)) ->
  resolved repo st ->
  resolved repo (tree_insert q st acc) /\
  (forall k, In k (packages (tree_insert q st acc)) -> In k repo) /\
  (forall k, In k (packages (tree_insert q st acc)) <->
             In k (packages acc) \/ k = q).
Proof.
  intros Hu Hacc Hkeys Hq Hst Hrst. destruct acc as [m].
  unfold tree_insert, packages in *. simpl in *.
  inversion Hacc as [m' Hm]; subst m'.
  (* a key of [m] equal to [q] is [q] *)
  assert (Heq : forall k, In k (map fst m) -> package_compare q k = Eq -> k = q).
  { intros k Hk He. destruct (package_compare_eq _ _ He) as [Hn Hv].
    symmetry. apply (repo_keys_unique_spec repo); auto. }
  split; [|split].
  - constructor. intros k v Hin.
    destruct (map_insert_entries _ _ _ _ _ Hin) as [H|[-> [->|[Hk He]]]].
    + exact (Hm k v H).
    + auto.
    + rewrite (Heq k Hk He). auto.
  - intros k Hk. destruct (map_insert_keys _ _ _ _ Hk) as [H| ->]; auto.
  - intros k. split; [apply map_insert_keys|].
    intros [Hk| ->]; [apply map_insert_old_keys; exact Hk|].
    destruct (map_insert_key q st m) as [k' [Hin Hk']].
    assert (Hk'm : In k' (map fst (map_insert q st m))).
    { apply in_map_iff. exists (k', st). auto. }
    destruct Hk' as [<-|He]; [exact Hk'm|].
    destruct (map_insert_keys _ _ _ _ Hk'm) as [H| ->]; [|exact Hk'm].
    rewrite (Heq k' H He) in Hk'm. exact Hk'm.
Qed.

Section Resolved.
Variable repo : Repository.
Hypothesis Huniq : repo_keys_unique repo = true.

Lemma add_package_tree_resolved fuel : forall root this p t,
  add_package_tree fuel repo root this p = Some (Ok t) ->
  exists st, t = tree_insert p st this /\
    (forall q, In q (packages st) <->
       exists n c, In (n, c) (get_all_dependencies p) /\
                   In q (find_with_version_constraint repo n c)) /\
    resolved repo st /\ (forall q, In q (packages st) -> In q repo).
Proof.
  induction fuel as [|f IH]; intros root this p t H; [discriminate|].
  rewrite add_package_tree_S in H.
  assert (Hf : forall pk acc t,
    follow_packages f repo root pk acc = Some (Ok t) ->
    (forall q, In q pk -> In q repo) ->
    resolved repo acc -> (forall q, In q (packages acc) -> In q repo) ->
    resolved repo t /\ (forall q, In q (packages t) -> In q repo) /\
    (forall q, In q (packages t) <-> In q (packages acc) \/ In q pk)).
  { induction pk as [|q pk IHpk]; intros acc t' Hp Hpk Hr Hk; simpl in Hp.
    - injection Hp as <-. split; [exact Hr|]. split; [exact Hk|].
      intros q. simpl. tauto.
    - destruct (add_package_tree f repo root acc q) as [[a|e]|] eqn:E;
        try discriminate.
      destruct (IH _ _ _ _ E) as [st [-> [Hst [Hrst _]]]].
      destruct (resolved_insert repo q st acc Huniq Hr Hk (Hpk q (or_introl eq_refl))
                  Hst Hrst) as [Hr' [Hk' Hiff]].
      destruct (IHpk _ _ Hp (fun x Hx => Hpk x (or_intror Hx)) Hr' Hk')
        as [Hr'' [Hk'' Hiff']].
      split; [exact Hr''|]. split; [exact Hk''|].
      intros x. rewrite Hiff', Hiff. simpl. intuition congruence. }
  assert (Hd : forall ds acc t,
    each_dependency f repo root ds acc = Some (Ok t) ->
    resolved repo acc -> (forall q, In q (packages acc) -> In q repo) ->
    resolved repo t /\ (forall q, In q (packages t) -> In q repo) /\
    (forall q, In q (packages t) <-> In q (packages acc) \/
       exists n c, In (n, c) ds /\ In q (find_with_version_constraint repo n c))).
  { induction ds as [|[n c] ds IHds]; intros acc t' Hp Hr Hk; simpl in Hp.
    - injection Hp as <-. split; [exact Hr|]. split; [exact Hk|].
      intros q. split; [tauto|]. intros [H0|[n [c [[] _]]]]. exact H0.
    - destruct (existsb _ _); [discriminate|].
      destruct (follow_packages f repo root _ acc) as [[a|e]|] eqn:E;
        try discriminate.
      destruct (Hf _ _ _ E (find_in_repo repo n c) Hr Hk) as [Hr' [Hk' Hiff]].
      destruct (IHds _ _ Hp Hr' Hk') as [Hr'' [Hk'' Hiff']].
      split; [exact Hr''|]. split; [exact Hk''|].
      intros q. rewrite Hiff', Hiff. split.
      + intros [[H0|H0]|[n' [c' [Hin Hq]]]]; [tauto| |].
        * right. exists n, c. simpl. auto.
        * right. exists n', c'. simpl. auto.
      + intros [H0|[n' [c' [[[= <- <-]|Hin] Hq]]]]; [tauto|tauto|].
        right. eauto. }
  destruct (each_dependency f repo root (get_all_dependencies p) new)
    as [[st|e]|] eqn:E; try discriminate.
  injection H as <-.
  destruct (Hd _ _ _ E (resolved_new repo) (fun q H => match H with end))
    as [Hr [Hk Hiff]].
  exists st. split; [reflexivity|]. split; [|auto].
  intros q. rewrite Hiff. simpl. split; [intros [[]|H0]; exact H0|auto].
Qed.

End Resolved.

(** X4: with a repository that holds each (name, version) once, the
    subtree [Tree::add_package] builds for a package holds exactly the
    repository's packages matching its dependencies, and every node below
    is resolved the same way. *)
Theorem add_package_subtree_resolved fuel repo self p t :
  repo_keys_unique repo = true ->
  add_package fuel repo self p = Some (Ok t) ->
  exists st, t = tree_insert p st self /\
    (forall q, In q (packages st) <->
       exists n c, In (n, c) (get_all_dependencies p) /\
                   In q (find_with_version_constraint repo n c)) /\
    resolved repo st.
Proof.
  intros Hu H. destruct (add_package_tree_resolved repo Hu _ _ _ _ _ H)
    as [st [Ht [Hk [Hr _]]]]. eauto.
Qed.

Lemma add_package_subtree_resolved_witness :
  repo_keys_unique repo_two_paths = true /\
  add_package 5 repo_two_paths new pkg_top = Some (Ok tree_two_paths) /\
  exists st, tree_two_paths = tree_insert pkg_top st new /\
    (forall q, In q (packages st) <->
       exists n c, In (n, c) (get_all_dependencies pkg_top) /\
                   In q (find_with_version_constraint repo_two_paths n c)) /\
    resolved repo_two_paths st.
Proof.
  assert (Hu : repo_keys_unique repo_two_paths = true) by (vm_compute; reflexivity).
  assert (H : add_package 5 repo_two_paths new pkg_top = Some (Ok tree_two_paths))
    by (vm_compute; reflexivity).
  split; [exact Hu|]. split; [exact H|].
  exact (add_package_subtree_resolved _ _ _ _ _ Hu H).
Defined.

End TreeFacts.

(* ------------------------------------------------------------------ *)
Module RunnableExtra.
Import Runnable.

(** X6: [build_resource] resolves a dependency for which the repository
    lookup finds one artifact to that artifact, with no log output. *)
Theorem build_resource_single {Dependency Artifact : Type} parse lookup
    (leb : Artifact -> Artifact -> bool) (dep : Dependency) name vers x :
  parse dep = Ok (name, vers) -> lookup name vers = Ok [x] ->
  build_resource parse lookup leb dep = ([], Ok (JRArtifact x)).
Proof. intros Hp Hl. unfold build_resource. rewrite Hp, Hl. reflexivity. Qed.

Lemma build_resource_single_witness :
  ex_parse "c" = Ok ("c", "1") /\ ex_lookup "c" "1" = Ok [7] /\
  build_resource ex_parse ex_lookup Nat.leb "c" = ([], Ok (JRArtifact 7)).
Proof.
  split; [reflexivity|]. split; [reflexivity|].
  apply (build_resource_single ex_parse ex_lookup Nat.leb "c" "c" "1" 7);
    reflexivity.
Defined.

(** X7: [build_resource] hands on a parse error of the dependency and an
    error of the artifact lookup unchanged. *)
Theorem build_resource_errors {Dependency Artifact : Type} parse lookup
    (leb : Artifact -> Artifact -> bool) (dep : Dependency) :
  (forall e, parse dep = Err e ->
     build_resource parse lookup leb dep = ([], Err e)) /\
  (forall name vers e, parse dep = Ok (name, vers) ->
     lookup name vers = Err e ->
     build_resource parse lookup leb dep = ([], Err e)).
Proof.
  split.
  - intros e Hp. unfold build_resource. rewrite Hp. reflexivity.
  - intros name vers e Hp Hl. unfold build_resource. rewrite Hp, Hl.
    reflexivity.
Qed.

Lemma collect_results_err_in {A : Type} (l : list (result Error A)) e :
  collect_results l = Err e -> In (Err e) l.
Proof.
  induction l as [|[a|e'] l IH]; simpl; [discriminate| |].
  - destruct (collect_results l); [discriminate|]. intros [= ->]. auto.
  - intros [= ->]. auto.
Qed.

Lemma collect_results_some_err {A : Type} (l : list (result Error A)) e :
  In (Err e) l -> exists e', collect_results l = Err e'.
Proof.
  induction l as [|[a|e'] l IH]; simpl; [intros []| |eauto].
  intros [[=]|H]. destruct (IH H) as [e' ->]. eauto.
Qed.

Lemma collect_unordered_err {Artifact : Type}
    (rs : list (result Error (JobResource Artifact))) out :
  collect_unordered rs out ->
  (forall e, out = Err e -> In (Err e) rs) /\
  ((exists e, In (Err e) rs) -> exists e, out = Err e) /\
  (forall vs, out = Ok vs -> forall r, In r rs -> exists v, r = Ok v).
Proof.
  intros [rs' [Hp ->]]. split; [|split].
  - intros e He. apply collect_results_err_in in He.
    exact (Permutation_in _ (Permutation_sym Hp) He).
  - intros [e He]. apply (collect_results_some_err rs' e).
    exact (Permutation_in _ Hp He).
  - intros vs Hvs r Hr. apply RunnableFacts.collect_results_ok in Hvs.
    apply (Permutation_in _ Hp) in Hr. rewrite Hvs in Hr.
    apply in_map_iff in Hr. destruct Hr as [v [<- _]]. eauto.
Qed.

(** X8: [RunnableJob::build_from_job] fails with the error of the script
    build when the script cannot be built. *)
Theorem build_from_job_script_error {Package Dependency Script Artifact : Type}
    (build_deps runtime_deps : Package -> list Dependency) parse lookup
    (leb : Artifact -> Artifact -> bool)
    (script_build : Job Package -> result Error Script) job r e :
  build_from_job build_deps runtime_deps parse lookup leb script_build job r ->
  script_build job = Err e -> r = Err e.
Proof.
  intros Hb Hs. destruct Hb as [e' He|script build rt Hs' _ _]; congruence.
Qed.

Lemma build_from_job_script_error_witness :
  build_from_job fst snd ex_parse ex_lookup Nat.leb ex_script_fails ex_job
    (Err (Other "script")) /\
  ex_script_fails ex_job = Err (Other "script") /\
  @Err Error (RunnableJob (list string * list string) string nat)
    (Other "script") = Err (Other "script").
Proof.
  assert (H : build_from_job fst snd ex_parse ex_lookup Nat.leb ex_script_fails
                ex_job (Err (Other "script")))
    by (apply build_script_error; reflexivity).
  split; [exact H|]. split; [reflexivity|].
  exact (build_from_job_script_error fst snd ex_parse ex_lookup Nat.leb
           ex_script_fails ex_job _ _ H eq_refl).
Defined.

(** X9: with a script built, a build dependency that cannot be resolved
    makes [RunnableJob::build_from_job] fail with the error of a build
    dependency (the runtime dependencies are not looked at). *)
Theorem build_from_job_build_error_first
    {Package Dependency Script Artifact : Type}
    (build_deps runtime_deps : Package -> list Dependency) parse lookup
    (leb : Artifact -> Artifact -> bool)
    (script_build : Job Package -> result Error Script) job script r :
  build_from_job build_deps runtime_deps parse lookup leb script_build job r ->
  script_build job = Ok script ->
  (exists d e, In d (build_deps (job_package job)) /\
               snd (build_resource parse lookup leb d) = Err e) ->
  exists d e, In d (build_deps (job_package job)) /\
              snd (build_resource parse lookup leb d) = Err e /\ r = Err e.
Proof.
  intros Hb Hs [d0 [e0 [Hd0 He0]]].
  destruct Hb as [e' He|script' build rt Hs' Hbu Hrt]; [congruence|].
  destruct (collect_unordered_err _ _ Hbu) as [Hin [Hsome _]].
  destruct Hsome as [e He].
  { exists e0. apply in_map_iff. exists d0. auto. }
  subst build. specialize (Hin e eq_refl).
  apply in_map_iff in Hin. destruct Hin as [d [Hde Hd]].
  exists d, e. auto.
Qed.

Lemma build_from_job_build_error_first_witness :
  exists r,
    build_from_job fst snd ex_parse ex_lookup Nat.leb ex_script
      ex_job_build_missing r /\
    ex_script ex_job_build_missing = Ok "script" /\
    (exists d e, In d (fst (job_package ex_job_build_missing)) /\
                 snd (build_resource ex_parse ex_lookup Nat.leb d) = Err e) /\
    exists d e, In d (fst (job_package ex_job_build_missing)) /\
                snd (build_resource ex_parse ex_lookup Nat.leb d) = Err e /\
                r = Err e.
Proof.
  eexists.
  assert (H : build_from_job fst snd ex_parse ex_lookup Nat.leb ex_script
                ex_job_build_missing
                (Err (Context "Building a runnable job"
                        (MissingDependency "z" "1")))).
  { apply (build_joined _ _ _ _ _ _ _ _ _ _ ex_job_build_missing "script"
             (Err (Context "Building a runnable job" (MissingDependency "z" "1")))
             (Ok [JRArtifact 7])).
    - reflexivity.
    - exists [Err (Context "Building a runnable job" (MissingDependency "z" "1"))].
      split; [vm_compute; constructor; constructor|reflexivity].
    - exists [Ok (JRArtifact 7)].
      split; [vm_compute; constructor; constructor|reflexivity]. }
  assert (Hd : exists d e, In d (fst (job_package ex_job_build_missing)) /\
                 snd (build_resource ex_parse ex_lookup Nat.leb d) = Err e).
  { exists "z". eexists. split; [left; reflexivity|reflexivity]. }
  split; [exact H|]. split; [reflexivity|]. split; [exact Hd|].
  exact (build_from_job_build_error_first fst snd ex_parse ex_lookup Nat.leb
           ex_script ex_job_build_missing "script" _ H eq_refl Hd).
Defined.

(** X10: every error of [RunnableJob::build_from_job] is the error of the
    script build, of a build dependency, or, when all build dependencies
    resolve, of a runtime dependency. *)
Theorem build_from_job_error_source
    {Package Dependency Script Artifact : Type}
    (build_deps runtime_deps : Package -> list Dependency) parse lookup
    (leb : Artifact -> Artifact -> bool)
    (script_build : Job Package -> result Error Script) job e :
  build_from_job build_deps runtime_deps parse lookup leb script_build job
    (Err e) ->
  script_build job = Err e \/
  (exists d, In d (build_deps (job_package job)) /\
             snd (build_resource parse lookup leb d) = Err e) \/
  ((forall d, In d (build_deps (job_package job)) ->
      exists v, snd (build_resource parse lookup leb d) = Ok v) /\
   exists d, In d (runtime_deps (job_package job)) /\
             snd (build_resource parse lookup leb d) = Err e).
Proof.
  intros Hb. remember (Err e) as r eqn:Hr.
  destruct Hb as [e' He|script build rt Hs Hbu Hrt].
  - left. congruence.
  - right.
    destruct (collect_unordered_err _ _ Hbu) as [Hbin [_ Hbok]].
    destruct (collect_unordered_err _ _ Hrt) as [Hrin [_ _]].
    destruct build as [b|eb].
    + destruct rt as [rs|er]; [discriminate|].
      injection Hr as ->. right. split.
      * intros d Hd. apply (Hbok b eq_refl). apply in_map_iff. eauto.
      * specialize (Hrin e eq_refl). apply in_map_iff in Hrin.
        destruct Hrin as [d [Hde Hd]]. eauto.
    + injection Hr as ->. left. specialize (Hbin e eq_refl).
      apply in_map_iff in Hbin. destruct Hbin as [d [Hde Hd]]. eauto.
Qed.

Lemma build_from_job_error_source_witness :
  build_from_job fst snd ex_parse ex_lookup Nat.leb ex_script
    ex_job_runtime_missing
    (Err (Context "Building a runnable job" (MissingDependency "z" "1"))) /\
  (ex_script ex_job_runtime_missing =
     Err (Context "Building a runnable job" (MissingDependency "z" "1")) \/
   (exists d, In d (fst (job_package ex_job_runtime_missing)) /\
      snd (build_resource ex_parse ex_lookup Nat.leb d) =
        Err (Context "Building a runnable job" (MissingDependency "z" "1"))) \/
   ((forall d, In d (fst (job_package ex_job_runtime_missing)) ->
       exists v, snd (build_resource ex_parse ex_lookup Nat.leb d) = Ok v) /\
    exists d, In d (snd (job_package ex_job_runtime_missing)) /\
      snd (build_resource ex_parse ex_lookup Nat.leb d) =
        Err (Context "Building a runnable job" (MissingDependency "z" "1")))).
Proof.
  assert (H : build_from_job fst snd ex_parse ex_lookup Nat.leb ex_script
                ex_job_runtime_missing
                (Err (Context "Building a runnable job"
                        (MissingDependency "z" "1")))).
  { apply (build_joined _ _ _ _ _ _ _ _ _ _ ex_job_runtime_missing "script"
             (Ok [JRArtifact 1])
             (Err (Context "Building a runnable job" (MissingDependency "z" "1")))).
    - reflexivity.
    - exists [Ok (JRArtifact 1)].
      split; [vm_compute; constructor; constructor|reflexivity].
    - exists [Err (Context "Building a runnable job" (MissingDependency "z" "1"))].
      split; [vm_compute; constructor; constructor|reflexivity]. }
  split; [exact H|].
  exact (build_from_job_error_source fst snd ex_parse ex_lookup Nat.leb
           ex_script ex_job_runtime_missing _ H).
Defined.

End RunnableExtra.

(* ------------------------------------------------------------------ *)
Module DbExtra.
Import Db.

(** X11: for a non-negative limit [get_limit] gives a [LIMIT] between 1 and
    [i64::MAX]: the limit itself when it is not 0, and [TryFromIntError]
    only for a limit above [i64::MAX]. *)
Theorem get_limit_range arg default_limit :
  (0 <= match arg with Some l => l | None => default_limit end)%Z ->
  match get_limit arg default_limit with
  | Ok n =>
      (1 <= n <= i64_max)%Z /\
      (match arg with Some l => l | None => default_limit end <> 0%Z ->
       n = match arg with Some l => l | None => default_limit end)
  | Err TryFromIntError =>
      (i64_max < match arg with Some l => l | None => default_limit end)%Z
  end.
Proof.
  unfold get_limit.
  generalize (match arg with Some l => l | None => default_limit end) as x.
  intros x H. destruct (Z.eqb_spec x 0).
  - split; [unfold i64_max; lia|intros; contradiction].
  - destruct (Z.leb_spec x i64_max); [split; [lia|reflexivity]|lia].
Qed.

Lemma get_limit_range_witness :
  (0 <= match Some 10%Z with Some l => l | None => 0%Z end)%Z /\
  match get_limit (Some 10%Z) 0 with
  | Ok n => (1 <= n <= i64_max)%Z /\
      (match Some 10%Z with Some l => l | None => 0%Z end <> 0%Z ->
       n = match Some 10%Z with Some l => l | None => 0%Z end)
  | Err TryFromIntError =>
      (i64_max < match Some 10%Z with Some l => l | None => 0%Z end)%Z
  end.
Proof. split; [simpl; lia|]. apply get_limit_range. simpl. lia. Defined.

Definition id_ge (r1 r2 : Row) : Prop := (row_id r2 <= row_id r1)%Z.

Lemma insert_desc_perm r l : Permutation (r :: l) (insert_desc r l).
Proof.
  induction l as [|r' l IH]; simpl; [reflexivity|].
  destruct (Z.leb _ _); [reflexivity|].
  transitivity (r' :: r :: l); [constructor|]. constructor. exact IH.
Qed.

Lemma order_by_id_desc_perm l : Permutation l (order_by_id_desc l).
Proof.
  induction l as [|r l IH]; simpl; [reflexivity|].
  transitivity (r :: order_by_id_desc l); [constructor; exact IH|].
  apply insert_desc_perm.
Qed.

Lemma insert_desc_sorted r l :
  Sorted id_ge l -> Sorted id_ge (insert_desc r l).
Proof.
  induction 1 as [|r' l Hs IH Hhd]; simpl; [repeat constructor|].
  destruct (Z.leb_spec (row_id r') (row_id r)).
  - constructor; [constructor; assumption|]. constructor. unfold id_ge. lia.
  - constructor; [exact IH|]. destruct l as [|r'' l]; simpl.
    + constructor. unfold id_ge. lia.
    + inversion Hhd; subst. destruct (Z.leb_spec (row_id r'') (row_id r));
        constructor; unfold id_ge in *; lia.
Qed.

Lemma order_by_id_desc_sorted l : Sorted id_ge (order_by_id_desc l).
Proof.
  induction l as [|r l IH]; simpl; [constructor|]. apply insert_desc_sorted. exact IH.
Qed.

Lemma sql_limit_firstn n l : sql_limit n l = firstn (Z.to_nat n) l.
Proof.
  revert n. induction l as [|r l IH]; intros n; simpl.
  - destruct (Z.to_nat n); reflexivity.
  - destruct (Z.leb_spec n 0).
    + replace (Z.to_nat n) with 0%nat by lia. reflexivity.
    + replace (Z.to_nat n) with (S (Z.to_nat (n - 1))) by lia.
      simpl. rewrite IH. reflexivity.
Qed.

Lemma strongly_sorted_app {A} (R : A -> A -> Prop) l1 l2 :
  StronglySorted R (l1 ++ l2) ->
  StronglySorted R l1 /\ StronglySorted R l2 /\
  forall x y, In x l1 -> In y l2 -> R x y.
Proof.
  induction l1 as [|a l1 IH]; simpl; intros H.
  - split; [constructor|]. split; [exact H|]. intros x y [].
  - inversion H as [|? ? Hs Hall]; subst. destruct (IH Hs) as [H1 [H2 H3]].
    rewrite Forall_forall in Hall.
    split; [constructor; [exact H1|]|split; [exact H2|]].
    + apply Forall_forall. intros x Hx. apply Hall, in_or_app. left. exact Hx.
    + intros x y [<-|Hx] Hy; [apply Hall, in_or_app; right; exact Hy|].
      apply H3; assumption.
Qed.

Lemma strongly_sorted_rev {A} (R : A -> A -> Prop) l :
  StronglySorted R l -> StronglySorted (fun x y => R y x) (rev l).
Proof.
  induction 1 as [|a l Hs IH Hall]; simpl; [constructor|].
  rewrite Forall_forall in Hall.
  assert (G : forall m, StronglySorted (fun x y => R y x) m ->
              (forall x, In x m -> R a x) ->
              StronglySorted (fun x y => R y x) (m ++ [a])).
  { induction m as [|b m IHm]; simpl; intros Hm Ha; [repeat constructor|].
    inversion Hm as [|? ? Hm' Hb]; subst. constructor.
    - apply IHm; [exact Hm'|]. intros x Hx. apply Ha. right. exact Hx.
    - apply Forall_app. split; [exact Hb|]. constructor; [apply Ha; left; reflexivity|constructor]. }
  apply G; [exact IH|]. intros x Hx. apply Hall. apply in_rev. exact Hx.
Qed.

(** X12: [db artifacts], [db jobs] and [db submits] without
    [--with-pkg] show the [limit] result rows with the highest ids, in
    ascending order of id; every row left out has an id no higher than
    every row shown; [db releases] shows the same rows in the reverse
    order. *)
Theorem db_window rows n :
  length (artifacts rows n) = Nat.min (Z.to_nat n) (length rows) /\
  StronglySorted (fun r1 r2 => (row_id r1 <= row_id r2)%Z) (artifacts rows n) /\
  (exists hidden, Permutation rows (artifacts rows n ++ hidden) /\
     forall r h, In r (artifacts rows n) -> In h hidden ->
                 (row_id h <= row_id r)%Z) /\
  jobs rows n = artifacts rows n /\ submits rows n = artifacts rows n /\
  releases rows n = rev (artifacts rows n).
Proof.
  assert (Hs : StronglySorted id_ge (order_by_id_desc rows)).
  { apply Sorted_StronglySorted; [|apply order_by_id_desc_sorted].
    intros x y z; unfold id_ge; lia. }
  assert (Hp := order_by_id_desc_perm rows).
  unfold artifacts, jobs, submits, releases. rewrite sql_limit_firstn.
  set (k := Z.to_nat n). set (s := order_by_id_desc rows) in *.
  rewrite <- (firstn_skipn k s) in Hs.
  destruct (strongly_sorted_app _ _ _ Hs) as [H1 [_ H3]].
  split; [|split; [|split; [|split; [reflexivity|split; [reflexivity|]]]]].
  - rewrite length_rev, length_firstn, (Permutation_length Hp). reflexivity.
  - exact (strongly_sorted_rev _ _ H1).
  - exists (skipn k s). split.
    + rewrite Hp. rewrite <- (firstn_skipn k s) at 1.
      apply Permutation_app_tail. apply Permutation_rev.
    + intros r h Hr Hh. apply in_rev in Hr. exact (H3 r h Hr Hh).
  - rewrite rev_involutive. reflexivity.
Qed.

Section Counts.
Variables (Job ParsedLog E : Type) (log_text : Job -> string).
Variable from_str : string -> result E ParsedLog.
Variable is_successfull : ParsedLog -> JobResult.

Lemma count_loop_spec jobs : forall u s e,
  match count_loop log_text from_str is_successfull jobs u s e with
  | Ok (u', s', e') =>
      u' = u + jobs_with_result log_text from_str is_successfull Unknown jobs /\
      s' = s + jobs_with_result log_text from_str is_successfull Success jobs /\
      e' = e + jobs_with_result log_text from_str is_successfull Errored jobs /\
      forall j, In j jobs -> exists pl, from_str (log_text j) = Ok pl
  | Err x =>
      exists pre j post, jobs = (pre ++ j :: post)%list /\
        (forall j', In j' pre -> exists pl, from_str (log_text j') = Ok pl) /\
        from_str (log_text j) = Err x
  end.
Proof.
  unfold jobs_with_result.
  induction jobs as [|j jobs IH]; intros u s e; simpl.
  - rewrite !Nat.add_0_r. repeat split. intros _ [].
  - destruct (from_str (log_text j)) as [pl|x] eqn:Hj.
    + assert (Hrest : forall u' s' e' r,
          count_loop log_text from_str is_successfull jobs u' s' e' = r ->
          match r with
          | Ok (u'', s'', e'') =>
              u'' = u' + length (filter (fun j => match from_str (log_text j) with Ok pl => JobResult_eqb (is_successfull pl) Unknown | Err _ => false end) jobs) /\
              s'' = s' + length (filter (fun j => match from_str (log_text j) with Ok pl => JobResult_eqb (is_successfull pl) Success | Err _ => false end) jobs) /\
              e'' = e' + length (filter (fun j => match from_str (log_text j) with Ok pl => JobResult_eqb (is_successfull pl) Errored | Err _ => false end) jobs) /\
              forall j, In j jobs -> exists pl, from_str (log_text j) = Ok pl
          | Err x => exists pre j post, jobs = (pre ++ j :: post)%list /\
              (forall j', In j' pre -> exists pl, from_str (log_text j') = Ok pl) /\
              from_str (log_text j) = Err x
          end).
      { intros u' s' e' r <-. apply IH. }
      destruct (is_successfull pl) eqn:Hr; simpl;
      match goal with |- match count_loop _ _ _ _ ?a ?b ?c with _ => _ end =>
        specialize (Hrest a b c _ eq_refl);
        destruct (count_loop log_text from_str is_successfull jobs a b c)
          as [[[u' s'] e']|x] end.
      all: try (destruct Hrest as [pre [j' [post [-> [Hpre Hx]]]]];
                exists (j :: pre), j', post; split; [reflexivity|]; split; [|exact Hx];
                intros j'' [<-|Hin]; [exists pl; exact Hj|auto]).
      all: destruct Hrest as [Hu [Hs [He Hall]]]; simpl;
           repeat split; try lia;
           intros j'' [<-|Hin]; [exists pl; exact Hj|auto].
    + exists [], j, jobs. split; [reflexivity|]. split; [intros _ []|exact Hj].
Qed.

End Counts.

(** X13: the three counters of [submit] are the numbers of jobs whose log
    is of unknown result, successful and errored, and add up to the number
    of jobs; the error is that of the first job whose log does not
    parse. *)
Theorem job_counts_spec {Job ParsedLog E : Type} (log_text : Job -> string)
    (from_str : string -> result E ParsedLog)
    (is_successfull : ParsedLog -> JobResult) (jobs : list Job) :
  match job_counts log_text from_str is_successfull jobs with
  | Ok (u, s, e) =>
      u = jobs_with_result log_text from_str is_successfull Unknown jobs /\
      s = jobs_with_result log_text from_str is_successfull Success jobs /\
      e = jobs_with_result log_text from_str is_successfull Errored jobs /\
      u + s + e = length jobs
  | Err x =>
      exists pre j post, jobs = (pre ++ j :: post)%list /\
        (forall j', In j' pre -> exists pl, from_str (log_text j') = Ok pl) /\
        from_str (log_text j) = Err x
  end.
Proof.
  unfold job_counts.
  generalize (count_loop_spec Job ParsedLog E log_text from_str is_successfull jobs 0 0 0).
  destruct (count_loop log_text from_str is_successfull jobs 0 0 0) as [[[u s] e]|x];
    [|exact (fun H => H)].
  intros [Hu [Hs [He Hall]]]. simpl in Hu, Hs, He. subst u s e.
  repeat split. unfold jobs_with_result.
  induction jobs as [|j jobs IH]; simpl; [reflexivity|].
  destruct (Hall j (or_introl eq_refl)) as [pl Hj]. rewrite Hj.
  rewrite <- IH by (intros j' Hj'; apply Hall; right; exact Hj').
  destruct (is_successfull pl); simpl; lia.
Qed.

(** The pieces of [split_dot]: [s] is [pre ++ seg] where [seg], the last
    piece, has no '.' and [pre] is empty or ends in '.'. *)
Lemma split_dot_last s :
  exists pre seg, s = pre ++ seg /\ no_dot seg = true /\
    iter_last (split_dot s) = Some seg /\
    ((pre = "" /\ split_dot s = [seg]) \/
     ((exists pre', pre = pre' ++ ".") /\
      exists x y ys, split_dot s = x :: y :: ys)).
Proof.
  induction s as [|c s IH].
  - exists "", "". repeat split. left. split; reflexivity.
  - destruct IH as [pre [seg [-> [Hnd [Hlast Hcase]]]]]. simpl.
    destruct (Ascii.eqb_spec c "."%char) as [->|Hc].
    + exists (String "." pre), seg. split; [reflexivity|]. split; [exact Hnd|].
      destruct Hcase as [[-> Hsp]|[[pre' ->] [x [y [ys Hsp]]]]]; rewrite Hsp in *.
      * split; [exact Hlast|]. right. split; [exists ""; reflexivity|].
        do 3 eexists; reflexivity.
      * split; [exact Hlast|]. right. split; [exists (String "." pre'); reflexivity|].
        do 3 eexists; reflexivity.
    + destruct Hcase as [[-> Hsp]|[[pre' ->] [x [y [ys Hsp]]]]]; rewrite Hsp in *.
      * exists "", (String c seg). simpl. split; [reflexivity|].
        split; [destruct (Ascii.eqb_spec c "."%char); [contradiction|exact Hnd]|].
        split; [reflexivity|]. left. split; reflexivity.
      * exists (String c (pre' ++ ".")), seg. split; [reflexivity|].
        split; [exact Hnd|]. split; [exact Hlast|]. right.
        split; [exists (String c pre'); reflexivity|]. do 3 eexists; reflexivity.
Qed.

(** X14: the "Type" column of [db jobs] is "-" without an artifact, and
    otherwise the upper-cased text after the last '.' of the artifact's
    path (the whole path when it has no '.'); the fallback "?" is never
    shown. *)
Theorem artifact_type_column (to_uppercase : string -> string) (path : string) :
  artifact_type to_uppercase None = "-" /\
  exists pre seg,
    path = pre ++ seg /\ no_dot seg = true /\
    (pre = "" \/ exists pre', pre = pre' ++ ".") /\
    artifact_type to_uppercase (Some path) = to_uppercase seg.
Proof.
  split; [reflexivity|].
  destruct (split_dot_last path) as [pre [seg [Hp [Hnd [Hlast Hcase]]]]].
  exists pre, seg. split; [exact Hp|]. split; [exact Hnd|]. split.
  - destruct Hcase as [[-> _]|[H _]]; [left; reflexivity|right; exact H].
  - unfold artifact_type. rewrite Hlast. reflexivity.
Qed.

(** X15: [db cli] without [--tool] runs psql if it is installed and pgcli
    otherwise; it only ever runs an installed psql or pgcli; a [--tool]
    that is not installed gives "No Program found", an installed
    unsupported one [UnsupportedProgram]. *)
Theorem select_pg_cli_spec (which : string -> option string) :
  select_pg_cli None which =
    match which "psql", which "pgcli" with
    | Some p, _ => Ok (Psql p)
    | None, Some p => Ok (PgCli p)
    | None, None => Err NoProgramFound
    end /\
  (forall tool c, select_pg_cli tool which = Ok c ->
     (exists p, c = Psql p /\ which "psql" = Some p /\
                (tool = None \/ tool = Some "psql")) \/
     (exists p, c = PgCli p /\ which "pgcli" = Some p /\
                ((tool = None /\ which "psql" = None) \/ tool = Some "pgcli"))) /\
  (forall s, which s = None -> select_pg_cli (Some s) which = Err NoProgramFound) /\
  (forall s p, which s = Some p -> s <> "psql" -> s <> "pgcli" ->
     select_pg_cli (Some s) which = Err (UnsupportedProgram s)).
Proof.
  split; [|split; [|split]].
  - unfold select_pg_cli. simpl.
    destruct (which "psql"), (which "pgcli"); reflexivity.
  - intros [s|] c; unfold select_pg_cli; simpl.
    + destruct (which s) as [p|] eqn:Hw; [|discriminate].
      destruct (String.eqb_spec s "psql") as [->|Hs1].
      * intros H; injection H as <-. left. exists p. auto.
      * destruct (String.eqb_spec s "pgcli") as [->|Hs2]; [|discriminate].
        intros H; injection H as <-. right. exists p. auto.
    + destruct (which "psql") as [p|] eqn:Hw1.
      * intros H; injection H as <-. left. exists p. auto.
      * destruct (which "pgcli") as [p|] eqn:Hw2; [|discriminate].
        intros H; injection H as <-. right. exists p. auto.
  - intros s Hs. unfold select_pg_cli. simpl. rewrite Hs. reflexivity.
  - intros s p Hs H1 H2. unfold select_pg_cli. simpl. rewrite Hs.
    destruct (String.eqb_spec s "psql"); [contradiction|].
    destruct (String.eqb_spec s "pgcli"); [contradiction|reflexivity].
Qed.

End DbExtra.

(* ------------------------------------------------------------------ *)
Lemma collect_vec_ok {E A : Type} (l : list (result E A)) xs :
  collect_vec l = Ok xs -> l = map Ok xs.
Proof.
  revert xs. induction l as [|[a|e] l IH]; simpl; intros xs H.
  - injection H as <-. reflexivity.
  - destruct (collect_vec l) as [ys|e]; [|discriminate].
    injection H as <-. rewrite (IH ys eq_refl). reflexivity.
  - discriminate.
Qed.

Lemma collect_vec_err {E A : Type} (l : list (result E A)) e :
  collect_vec l = Err e ->
  exists pre post, l = (pre ++ Err e :: post)%list /\
    forall r, In r pre -> exists a, r = Ok a.
Proof.
  induction l as [|[a|e'] l IH]; simpl; intros H.
  - discriminate.
  - destruct (collect_vec l) as [ys|e']; [discriminate|].
    injection H as ->. destruct (IH eq_refl) as [pre [post [-> Hpre]]].
    exists (Ok a :: pre), post. split; [reflexivity|].
    intros r [<-|Hr]; [exists a; reflexivity|auto].
  - injection H as ->. exists [], l. split; [reflexivity|intros _ []].
Qed.

Lemma collect_vec_some_err {E A : Type} (l : list (result E A)) e :
  In (Err e) l -> exists e', collect_vec l = Err e'.
Proof.
  induction l as [|[a|e'] l IH]; simpl; intros H.
  - destruct H.
  - destruct H as [H|H]; [discriminate|].
    destruct (IH H) as [e' He']. rewrite He'. exists e'. reflexivity.
  - exists e'. reflexivity.
Qed.

Module EndpointExtra.
Import EndpointSelection.

(** X16: without an endpoint name, the [endpoint] commands connect to every
    configured endpoint, in configuration order, each with the docker
    requirements. *)
Theorem endpoint_names_default docker :
  map (fun ec => (endpoint_name ec, endpoint ec))
      (endpoint_configurations docker (endpoint_names_of docker None)) =
    endpoints docker /\
  forall ec, In ec (endpoint_configurations docker (endpoint_names_of docker None)) ->
    required_images ec = images docker /\
    required_docker_versions ec = docker_versions docker /\
    required_docker_api_versions ec = docker_api_versions docker.
Proof.
  unfold endpoint_configurations, endpoint_names_of. split.
  - assert (G : forall (eps : list (EndpointName * Endpoint)) names,
              (forall n e, In (n, e) eps -> In n names) ->
              filter (fun '(ep_name, _) => existsb (fun n => n =? ep_name) names) eps = eps).
    { induction eps as [|[n e] eps IH]; simpl; intros names H; [reflexivity|].
      replace (existsb (fun n0 => n0 =? n) names) with true.
      - rewrite IH; [reflexivity|]. intros n' e' Hin. apply (H n' e'). right. exact Hin.
      - symmetry. apply existsb_exists. exists n. split; [apply (H n e); left; reflexivity|].
        apply String.eqb_refl. }
    rewrite G.
    + rewrite map_map. induction (endpoints docker) as [|[n e] eps IH]; simpl;
        [reflexivity|rewrite IH; reflexivity].
    + intros n e Hin. apply in_map_iff. exists (n, e). auto.
  - intros ec Hec. apply in_map_iff in Hec. destruct Hec as [[n e] [<- _]].
    simpl. auto.
Qed.

Lemma ping_loop_ok {E : Type} (ping : nat -> result E unit) m : forall k,
  (forall i, k <= i < k + m -> ping i = Ok tt) -> ping_loop ping k m = (m, Ok tt).
Proof.
  induction m as [|m IH]; intros k H; simpl; [reflexivity|].
  rewrite (H k ltac:(lia)). rewrite IH; [reflexivity|].
  intros i Hi. apply H. lia.
Qed.

Lemma ping_loop_err {E : Type} (ping : nat -> result E unit) m : forall k i e,
  k <= i < k + m -> ping i = Err e ->
  (forall j, k <= j < i -> ping j = Ok tt) ->
  ping_loop ping k m = (i - k + 1, Err e).
Proof.
  induction m as [|m IH]; intros k i e Hi He Hb; simpl; [lia|].
  destruct (Nat.eq_dec i k) as [->|Hne].
  - rewrite He. f_equal. lia.
  - rewrite (Hb k ltac:(lia)). rewrite (IH (S k) i e); [|lia|exact He|].
    + f_equal. lia.
    + intros j Hj. apply Hb. lia.
Qed.

(** X17: in [endpoint ping], for a number of pings [n] below [u64::MAX],
    an endpoint's bar advances once per ping: when all [n] pings succeed
    the bar reaches [n] and the task succeeds; the first failing ping [i]
    stops the task with the bar at [i] and that ping's error. *)
Theorem ping_endpoint_spec {E : Type} (n_pings : Z) (ping : nat -> result E unit) :
  (0 <= n_pings < u64_max)%Z ->
  ((forall i, 1 <= i -> (Z.of_nat i <= n_pings)%Z -> ping i = Ok tt) ->
   ping_endpoint n_pings ping = (Z.to_nat n_pings, Ok tt)) /\
  (forall i e, 1 <= i -> (Z.of_nat i <= n_pings)%Z -> ping i = Err e ->
   (forall j, 1 <= j < i -> ping j = Ok tt) ->
   ping_endpoint n_pings ping = (i, Err e)).
Proof.
  intros Hn. unfold ping_endpoint.
  rewrite Z.mod_small by (unfold u64_max in *; lia).
  replace (n_pings + 1 - 1)%Z with n_pings by lia. split.
  - intros H. apply ping_loop_ok. intros i Hi. apply H; lia.
  - intros i e Hi Hle He Hb.
    rewrite (ping_loop_err ping (Z.to_nat n_pings) 1 i e); [|lia|exact He|exact Hb].
    f_equal. lia.
Qed.

(** The second of three pings fails. *)
Lemma ping_endpoint_spec_witness :
  (0 <= 3 < u64_max)%Z /\
  ((forall i, 1 <= i -> (Z.of_nat i <= 3)%Z ->
      (fun k => if Nat.eqb k 2 then Err tt else Ok tt) i = Ok tt) ->
   ping_endpoint 3 (fun k => if Nat.eqb k 2 then Err tt else Ok tt) =
     (Z.to_nat 3, Ok tt)) /\
  (forall i e, 1 <= i -> (Z.of_nat i <= 3)%Z ->
   (fun k => if Nat.eqb k 2 then Err tt else Ok tt) i = Err e ->
   (forall j, 1 <= j < i ->
      (fun k => if Nat.eqb k 2 then Err tt else Ok tt) j = Ok tt) ->
   ping_endpoint 3 (fun k => if Nat.eqb k 2 then Err tt else Ok tt) = (i, Err e)).
Proof.
  split; [unfold u64_max; lia|].
  apply (ping_endpoint_spec 3 (fun k => if Nat.eqb k 2 then Err tt else Ok tt)).
  unfold u64_max. lia.
Defined.

(** X18: [endpoint containers prune] only deletes exited containers
    created strictly within the given bounds, each on the endpoint that
    listed it, and only after the user confirmed the prompt with their
    number; a failed listing deletes nothing. *)
Theorem containers_prune_targets_spec {E : Type} (older_than_filter newer_than_filter : option Z)
    (listings : list (EndpointName * result E (list ContainerStat)))
    (confirm : nat -> result E bool) :
  match containers_prune_targets older_than_filter newer_than_filter listings confirm with
  | Ok targets =>
      (forall ep stat, In (ep, stat) targets ->
         stat_state stat = "exited" /\
         (forall t, older_than_filter = Some t -> (stat_created stat < t)%Z) /\
         (forall t, newer_than_filter = Some t -> (t < stat_created stat)%Z) /\
         exists stats, In (ep, Ok stats) listings /\ In stat stats) /\
      (targets <> [] -> confirm (length targets) = Ok true)
  | Err e =>
      (exists ep, In (ep, Err e) listings) \/ (exists n, confirm n = Err e)
  end /\
  ((exists ep e, In (ep, Err e) listings) ->
   exists e, containers_prune_targets older_than_filter newer_than_filter listings confirm = Err e).
Proof.
  unfold containers_prune_targets.
  match goal with |- context [collect_vec (map ?g listings)] => set (f := g) end.
  split.
  - destruct (collect_vec (map f listings)) as [stats|e] eqn:Hc.
    + apply collect_vec_ok in Hc.
      destruct (confirm (length (concat stats))) as [[|]|e] eqn:Hconf.
      * split; [|intros _; exact Hconf].
        intros ep stat Hin. apply in_concat in Hin. destruct Hin as [chunk [Hch Hin]].
        assert (Hm : In (Ok chunk) (map f listings)).
        { rewrite Hc. apply in_map. exact Hch. }
        apply in_map_iff in Hm. destruct Hm as [[ep0 [sts|e]] [Hf Hl]]; simpl in Hf;
          [|discriminate].
        injection Hf as <-. apply in_map_iff in Hin. destruct Hin as [stat' [Heq Hin]].
        injection Heq as <- <-. apply filter_In in Hin. destruct Hin as [Hin Hp].
        unfold prune_filter in Hp. apply andb_prop in Hp. destruct Hp as [Hp Hn].
        apply andb_prop in Hp. destruct Hp as [Hs Ho].
        split; [apply String.eqb_eq; exact Hs|]. split; [|split].
        -- intros t ->. apply Z.ltb_lt. exact Ho.
        -- intros t ->. apply Z.ltb_lt. exact Hn.
        -- exists sts. auto.
      * split; [intros ? ? []|intros H; contradiction].
      * right. exists (length (concat stats)). exact Hconf.
    + left. apply collect_vec_err in Hc. destruct Hc as [pre [post [Hc _]]].
      assert (Hm : In (Err e) (map f listings)) by (rewrite Hc; apply in_or_app; right; left; reflexivity).
      apply in_map_iff in Hm. destruct Hm as [[ep0 [sts|e']] [Hf Hl]]; simpl in Hf;
        [discriminate|]. injection Hf as ->. exists ep0. exact Hl.
  - intros [ep [e Hin]].
    destruct (collect_vec_some_err (map f listings) e) as [e' He'].
    + change (Err e) with (f (ep, Err e)). apply in_map. exact Hin.
    + rewrite He'. exists e'. reflexivity.
Qed.

End EndpointExtra.

Module WhatDependsFacts.
Import WhatDepends.

Lemma what_depends_packages_cons {E : Type} (package_filter : PackageTree.Package -> result E bool) p ps :
  what_depends_packages package_filter (p :: ps) =
    match package_filter p with
    | Ok true => match what_depends_packages package_filter ps with
                 | Ok xs => Ok (p :: xs)
                 | Err e => Err e
                 end
    | Ok false => what_depends_packages package_filter ps
    | Err e => Err e
    end.
Proof.
  unfold what_depends_packages. simpl.
  destruct (package_filter p) as [[|]|e]; reflexivity.
Qed.

(** X19: [what_depends] prints the repository's packages that the
    dependency filter accepts, in repository order, when the filter
    succeeds on all of them; otherwise it fails with the filter error of
    the first package it fails on. *)
Theorem what_depends_packages_spec {E : Type}
    (package_filter : PackageTree.Package -> result E bool)
    (packages : list PackageTree.Package) :
  match what_depends_packages package_filter packages with
  | Ok ps =>
      (forall p, In p packages -> exists b, package_filter p = Ok b) /\
      ps = filter (fun p => match package_filter p with
                            | Ok b => b
                            | Err _ => false
                            end) packages
  | Err e =>
      exists pre p post, packages = (pre ++ p :: post)%list /\
        (forall q, In q pre -> exists b, package_filter q = Ok b) /\
        package_filter p = Err e
  end.
Proof.
  induction packages as [|p ps IH].
  - split; [intros _ []|reflexivity].
  - rewrite what_depends_packages_cons. simpl.
    destruct (package_filter p) as [[|]|e] eqn:Hp.
    + destruct (what_depends_packages package_filter ps) as [xs|e].
      * destruct IH as [Hall ->]. split; [|reflexivity].
        intros q [<-|Hq]; [exists true; exact Hp|auto].
      * destruct IH as [pre [q [post [-> [Hpre Hq]]]]].
        exists (p :: pre), q, post. split; [reflexivity|]. split; [|exact Hq].
        intros q' [<-|Hq']; [exists true; exact Hp|auto].
    + destruct (what_depends_packages package_filter ps) as [xs|e].
      * destruct IH as [Hall ->]. split; [|reflexivity].
        intros q [<-|Hq]; [exists false; exact Hp|auto].
      * destruct IH as [pre [q [post [-> [Hpre Hq]]]]].
        exists (p :: pre), q, post. split; [reflexivity|]. split; [|exact Hq].
        intros q' [<-|Hq']; [exists false; exact Hp|auto].
    + exists [], p, ps. split; [reflexivity|]. split; [intros _ []|exact Hp].
Qed.

End WhatDependsFacts.
